(** * easy-2fa: HOTP/TOTP code derivation and verification

    A shallow embedding of [src/index.ts] and the properties of its
    operations: [generateSeed], [generateCode], [verifyTOTP], [verifyHOTP],
    [generateURL] and [generateQRCode].

    Conventions of the embedding.
    - A JavaScript number that holds an integer is the integer itself, in [Z].
      The 32-bit conversions of the bit operators are written out
      ([ToInt32]).  Additions and subtractions of counters are exact on the
      safe integers (magnitude below 2^53), which is where [Z] arithmetic
      and the program's arithmetic coincide; [parseInt] may also yield
      [NaN].  The divisions of [verifyTOTP] are taken in the rationals: the
      rounding of floating point is left out.
    - A JavaScript string is a [string] holding its UTF-8 bytes; the limit
      that an engine puts on the length of a string is left out.
    - A [Buffer] is a [list byte]; reading past its end yields [None]
      ([undefined]).
    - A thrown exception or a rejected promise is the [Throw] outcome.
    - The collaborators are inputs: the secure random source is a stream of
      bytes, the clock is the value of [Date.now()], the keyed hash and the
      QR renderer are functions.  [HMAC.hmac_sha1] is the keyed hash that
      [crypto.createHmac('sha1', _)] computes, used for the concrete runs. *)

From Stdlib Require Import ZArith List Bool Lia.
From Stdlib Require Import Strings.String Strings.Ascii Strings.Byte.
From Stdlib Require Import QArith Qround.
Import ListNotations.
Open Scope string_scope.
Open Scope Z_scope.

(** ** Outcomes of a call *)

Inductive js_error : Type :=
| RangeError                 (* BigInt conversion, writeBigInt64BE *)
| TypeError                  (* a method called on undefined *)
| MissingSeedOrURL           (* Error('You must provide either a seed or a URL.') *)
| RenderError (msg : string) (* rejection coming from the QR renderer *).

Inductive outcome (A : Type) : Type :=
| Return (a : A)
| Throw (e : js_error)
| OutOfFuel.
Arguments Return {A} a.
Arguments Throw {A} e.
Arguments OutOfFuel {A}.

Definition bind {A B : Type} (m : outcome A) (k : A -> outcome B) : outcome B :=
  match m with
  | Return a => k a
  | Throw e => Throw e
  | OutOfFuel => OutOfFuel
  end.

Notation "'let*' x ':=' m 'in' k" := (bind m (fun x => k))
  (at level 10, x name, m at level 100, k at level 200).

(** ** Numbers *)

(** The results of [parseInt] and the codes compared by [===]. *)
Inductive number : Type :=
| Num (z : Z)
| NaN.

(** [a === b] on numbers: [NaN] is equal to nothing, itself included. *)
Definition strict_equal (a b : number) : bool :=
  match a, b with
  | Num x, Num y => x =? y
  | _, _ => false
  end.

(** [x ?? d] on an optional field. *)
Definition nullish {A : Type} (x : option A) (d : A) : A :=
  match x with
  | Some v => v
  | None => d
  end.
Infix "??" := nullish (at level 45, left associativity).

(** Truthiness of an optional string: [undefined] and [''] are falsy. *)
Definition truthy (x : option string) : bool :=
  match x with
  | Some (String _ _) => true
  | _ => false
  end.

(** *** 32-bit integer operators *)

Definition ToInt32 (z : Z) : Z := (z + 2 ^ 31) mod 2 ^ 32 - 2 ^ 31.

(** [undefined] converts to [NaN] and then to [0]. *)
Definition ToInt32_opt (x : option Z) : Z :=
  match x with
  | Some z => ToInt32 z
  | None => 0
  end.

Definition js_and (a : option Z) (b : Z) : Z := Z.land (ToInt32_opt a) (ToInt32 b).
Definition js_or (a b : Z) : Z := Z.lor (ToInt32 a) (ToInt32 b).
Definition js_shl (a n : Z) : Z := ToInt32 (Z.shiftl (ToInt32 a) (n mod 32)).

(** ** Bytes and buffers *)

Definition Z_of_byte (b : byte) : Z := Z.of_N (Byte.to_N b).

Definition byte_of_Z (z : Z) : byte :=
  match Byte.of_N (Z.to_N (z mod 256)) with
  | Some b => b
  | None => x00
  end.

(** [buf[i]]: the byte as a number, [undefined] out of range. *)
Definition buf_get (buf : list byte) (i : Z) : option Z :=
  if i <? 0 then None else option_map Z_of_byte (nth_error buf (Z.to_nat i)).

(** [buf.writeBigInt64BE(BigInt(value))] on [Buffer.alloc(8)]: the
    two's-complement bytes, most significant first; a value outside the
    signed 64-bit range is refused. *)
Definition writeBigInt64BE (value : Z) : outcome (list byte) :=
  if (- 2 ^ 63 <=? value) && (value <? 2 ^ 63)
  then Return (map (fun k => byte_of_Z (Z.land (Z.shiftr value (8 * k)) 255))
                   [7; 6; 5; 4; 3; 2; 1; 0])
  else Throw RangeError.

(** *** Hexadecimal text of a buffer *)

Definition hex_digit (d : Z) : ascii :=
  ascii_of_N (Z.to_N (if d <? 10 then 48 + d else 87 + d)).

Definition hex_value (c : ascii) : option Z :=
  let n := Z.of_N (N_of_ascii c) in
  if (48 <=? n) && (n <=? 57) then Some (n - 48)
  else if (97 <=? n) && (n <=? 102) then Some (n - 87)
  else if (65 <=? n) && (n <=? 70) then Some (n - 55)
  else None.

(** [buf.toString('hex')], as [digest('hex')] produces it. *)
Fixpoint to_hex (buf : list byte) : string :=
  match buf with
  | [] => EmptyString
  | b :: rest =>
      String (hex_digit (Z_of_byte b / 16))
        (String (hex_digit (Z_of_byte b mod 16)) (to_hex rest))
  end.

(** [Buffer.from(text, 'hex')]: pairs of digits, up to the first pair that
    is not hexadecimal. *)
Fixpoint from_hex (text : string) : list byte :=
  match text with
  | String hi (String lo rest) =>
      match hex_value hi, hex_value lo with
      | Some h, Some l => byte_of_Z (16 * h + l) :: from_hex rest
      | _, _ => []
      end
  | _ => []
  end.

(** ** The keyed hash: SHA-1 and HMAC (FIPS 180-4, RFC 2104) *)

Module SHA1.

Definition w32 (x : Z) : Z := Z.land x 4294967295.
Definition rotl (n x : Z) : Z := w32 (Z.lor (Z.shiftl x n) (Z.shiftr x (32 - n))).

(** Big-endian bytes of a number, [n] of them. *)
Fixpoint be_bytes (n : nat) (x : Z) : list Z :=
  match n with
  | O => []
  | S n' => Z.land (Z.shiftr x (8 * Z.of_nat n')) 255 :: be_bytes n' x
  end.

Definition pad (msg : list Z) : list Z :=
  let l := Z.of_nat (List.length msg) in
  msg ++ [128] ++ repeat 0 (Z.to_nat ((55 - l) mod 64)) ++ be_bytes 8 (8 * l).

Fixpoint words (bs : list Z) : list Z :=
  match bs with
  | a :: b :: c :: d :: rest =>
      (a * 16777216 + b * 65536 + c * 256 + d) :: words rest
  | _ => []
  end.

(** The next [n] words of the message schedule, from the last sixteen. *)
Fixpoint expand (n : nat) (window : list Z) : list Z :=
  match n with
  | O => []
  | S n' =>
      match window with
      | w0 :: rest =>
          let x := rotl 1 (Z.lxor (Z.lxor (Z.lxor (nth 12 rest 0) (nth 7 rest 0))
                                          (nth 1 rest 0)) w0) in
          x :: expand n' (rest ++ [x])
      | [] => []
      end
  end.

Definition f (t b c d : Z) : Z :=
  if t <? 20 then Z.lor (Z.land b c) (Z.land (Z.lxor b 4294967295) d)
  else if t <? 40 then Z.lxor (Z.lxor b c) d
  else if t <? 60 then Z.lor (Z.lor (Z.land b c) (Z.land b d)) (Z.land c d)
  else Z.lxor (Z.lxor b c) d.

Definition K (t : Z) : Z :=
  if t <? 20 then 1518500249
  else if t <? 40 then 1859775393
  else if t <? 60 then 2400959708
  else 3395469782.

Definition state : Type := (Z * Z * Z * Z * Z)%type.

Fixpoint rounds (t : Z) (schedule : list Z) (st : state) : state :=
  match schedule with
  | [] => st
  | w :: rest =>
      let '(a, b, c, d, e) := st in
      let temp := w32 (rotl 5 a + f t b c d + e + K t + w) in
      rounds (t + 1) rest (temp, a, rotl 30 b, c, d)
  end.

Definition compress (h : state) (block : list Z) : state :=
  let w16 := words block in
  let '(a, b, c, d, e) := rounds 0 (w16 ++ expand 64 w16) h in
  let '(h0, h1, h2, h3, h4) := h in
  (w32 (h0 + a), w32 (h1 + b), w32 (h2 + c), w32 (h3 + d), w32 (h4 + e)).

Fixpoint blocks (n : nat) (bs : list Z) (h : state) : state :=
  match n with
  | O => h
  | S n' => blocks n' (skipn 64 bs) (compress h (firstn 64 bs))
  end.

Definition initial : state :=
  (1732584193, 4023233417, 2562383102, 271733878, 3285377520).

Definition digest (msg : list Z) : list Z :=
  let padded := pad msg in
  let '(h0, h1, h2, h3, h4) :=
    blocks (Nat.div (List.length padded) 64) padded initial in
  be_bytes 4 h0 ++ be_bytes 4 h1 ++ be_bytes 4 h2 ++ be_bytes 4 h3 ++ be_bytes 4 h4.

End SHA1.

Module HMAC.

Definition block_key (key : list Z) : list Z :=
  let k := if (64 <? List.length key)%nat then SHA1.digest key else key in
  k ++ repeat 0 (64 - List.length k).

Definition hmac_sha1_Z (key msg : list Z) : list Z :=
  let k := block_key key in
  SHA1.digest (map (Z.lxor 92) k ++ SHA1.digest (map (Z.lxor 54) k ++ msg)).

(** [crypto.createHmac('sha1', key).update(msg).digest()]. *)
Definition hmac_sha1 (key msg : list byte) : list byte :=
  map byte_of_Z (hmac_sha1_Z (map Z_of_byte key) (map Z_of_byte msg)).

End HMAC.


(** ** Strings *)

Fixpoint drop (n : nat) (s : string) : string :=
  match n, s with
  | S n', String _ rest => drop n' rest
  | _, _ => s
  end.

(** [s.slice(start)]: a negative [start] counts from the end. *)
Definition slice (s : string) (start : Z) : string :=
  let size := Z.of_nat (length s) in
  let from := if start <? 0 then Z.max (size + start) 0 else Z.min start size in
  drop (Z.to_nat from) s.

(** The first [n] characters of [filler] repeated; [rest] is what remains
    of the current copy. *)
Fixpoint fill (n : nat) (rest filler : string) : string :=
  match n with
  | O => EmptyString
  | S n' =>
      match rest with
      | String c rest' => String c (fill n' rest' filler)
      | EmptyString =>
          match filler with
          | String c rest' => String c (fill n' rest' filler)
          | EmptyString => EmptyString
          end
      end
  end.

(** [s.padStart(maxLength, filler)]. *)
Definition padStart (s : string) (maxLength : Z) (filler : string) : string :=
  let size := Z.of_nat (length s) in
  if (maxLength <=? size) || (filler =? "")%string then s
  else fill (Z.to_nat (maxLength - size)) filler filler ++ s.

Definition digit_char (d : Z) : ascii := ascii_of_N (Z.to_N (48 + d)).

Definition digit_value (c : ascii) : option Z :=
  let n := Z.of_N (N_of_ascii c) in
  if (48 <=? n) && (n <=? 57) then Some (n - 48) else None.

(** The decimal digits of [n >= 0] in front of [acc]. *)
Fixpoint decimal (fuel : nat) (n : Z) (acc : string) : string :=
  match fuel with
  | O => acc
  | S fuel' =>
      let acc' := String (digit_char (n mod 10)) acc in
      if n <? 10 then acc' else decimal fuel' (n / 10) acc'
  end.

(** [z.toString()] for an integer [z]. *)
Definition Number_toString (z : Z) : string :=
  if z <? 0 then String "-" (decimal (S (Z.to_nat (Z.log2 (- z)))) (- z) "")
  else decimal (S (Z.to_nat (Z.log2 z))) z "".

(** [String.fromCharCode(n)] for a code below 128. *)
Definition fromCharCode (n : Z) : string := String (ascii_of_N (Z.to_N n)) "".

(** The value of the longest prefix of decimal digits, [None] if there is
    no digit. *)
Fixpoint parse_digits (s : string) (acc : option Z) : option Z :=
  match s with
  | String c rest =>
      match digit_value c with
      | Some d => parse_digits rest (Some (10 * (acc ?? 0) + d))
      | None => acc
      end
  | EmptyString => acc
  end.

(** [parseInt(s)] on text made of an optional sign and decimal digits
    (white space and the [0x] prefix do not occur in the text of an
    integer). *)
Definition parseInt (s : string) : number :=
  let (negative, digits) :=
    match s with
    | String c rest => if (c =? "-")%char then (true, rest) else (false, s)
    | EmptyString => (false, s)
    end in
  match parse_digits digits None with
  | Some v => Num (if negative then - v else v)
  | None => NaN
  end.

(** [s.replace(/c/g, '')]. *)
Fixpoint remove_all (c : ascii) (s : string) : string :=
  match s with
  | EmptyString => EmptyString
  | String a rest =>
      if Ascii.eqb a c then remove_all c rest else String a (remove_all c rest)
  end.

(** *** Base32 (RFC 4648), as [hi-base32] encodes the bytes of a string *)

Module base32.

Definition BASE32_ENCODE_CHAR : string := "ABCDEFGHIJKLMNOPQRSTUVWXYZ234567".

Definition char (v : Z) : ascii :=
  match get (Z.to_nat v) BASE32_ENCODE_CHAR with
  | Some c => c
  | None => "="%char
  end.

Definition shl (v n : Z) : Z := Z.shiftl v n.
Definition shr (v n : Z) : Z := Z.shiftr v n.
Definition low5 (v : Z) : Z := Z.land v 31.

Fixpoint encode_bytes (bs : list Z) : string :=
  match bs with
  | v1 :: v2 :: v3 :: v4 :: v5 :: rest =>
      String (char (shr v1 3))
     (String (char (low5 (Z.lor (shl v1 2) (shr v2 6))))
     (String (char (low5 (shr v2 1)))
     (String (char (low5 (Z.lor (shl v2 4) (shr v3 4))))
     (String (char (low5 (Z.lor (shl v3 1) (shr v4 7))))
     (String (char (low5 (shr v4 2)))
     (String (char (low5 (Z.lor (shl v4 3) (shr v5 5))))
     (String (char (low5 v5)) (encode_bytes rest))))))))
  | [v1; v2; v3; v4] =>
      String (char (shr v1 3))
     (String (char (low5 (Z.lor (shl v1 2) (shr v2 6))))
     (String (char (low5 (shr v2 1)))
     (String (char (low5 (Z.lor (shl v2 4) (shr v3 4))))
     (String (char (low5 (Z.lor (shl v3 1) (shr v4 7))))
     (String (char (low5 (shr v4 2)))
     (String (char (low5 (shl v4 3))) "=")))))) 
  | [v1; v2; v3] =>
      String (char (shr v1 3))
     (String (char (low5 (Z.lor (shl v1 2) (shr v2 6))))
     (String (char (low5 (shr v2 1)))
     (String (char (low5 (Z.lor (shl v2 4) (shr v3 4))))
     (String (char (low5 (shl v3 1))) "==="))))
  | [v1; v2] =>
      String (char (shr v1 3))
     (String (char (low5 (Z.lor (shl v1 2) (shr v2 6))))
     (String (char (low5 (shr v2 1)))
     (String (char (low5 (shl v2 4))) "====")))
  | [v1] =>
      String (char (shr v1 3))
     (String (char (low5 (shl v1 2))) "======")
  | [] => EmptyString
  end.

Definition encode (s : string) : string :=
  encode_bytes (map Z_of_byte (list_byte_of_string s)).

End base32.

(** *** Percent-encoding *)

Definition upper_hex_digit (d : Z) : ascii :=
  ascii_of_N (Z.to_N (if d <? 10 then 48 + d else 55 + d)).

(** The characters [encodeURIComponent] leaves as they are:
    [A-Z a-z 0-9 - _ . ! ~ * ' ( )]. *)
Definition unreserved (c : ascii) : bool :=
  let n := Z.of_N (N_of_ascii c) in
  ((65 <=? n) && (n <=? 90)) || ((97 <=? n) && (n <=? 122))
  || ((48 <=? n) && (n <=? 57))
  || (n =? 45) || (n =? 95) || (n =? 46) || (n =? 33) || (n =? 126)
  || (n =? 42) || (n =? 39) || (n =? 40) || (n =? 41).

(** [encodeURIComponent(s)] on the UTF-8 bytes of [s]. *)
Fixpoint encodeURIComponent (s : string) : string :=
  match s with
  | EmptyString => EmptyString
  | String c rest =>
      if unreserved c then String c (encodeURIComponent rest)
      else
        let n := Z.of_N (N_of_ascii c) in
        String "%" (String (upper_hex_digit (n / 16))
                      (String (upper_hex_digit (n mod 16)) (encodeURIComponent rest)))
  end.

(** ** The options of the operations *)

(** [options?.field]: the field of an optional record. *)
Definition field {O A : Type} (options : option O) (f : O -> option A) : option A :=
  match options with
  | Some o => f o
  | None => None
  end.
Infix "?." := field (at level 40, left associativity).

Module GenerateSeedOptions.
Record t : Type := { length : option Z }.
End GenerateSeedOptions.

Module GenerateCodeOptions.
Record t : Type := { length : option Z }.
End GenerateCodeOptions.

Module VerifyTOTPOptions.
Record t : Type := { length : option Z; step : option Z }.
End VerifyTOTPOptions.

Module VerifyHOTPOptions.
Record t : Type :=
  { length : option Z;
    allowedBeforeDrift : option Z;
    allowedAfterDrift : option Z }.
End VerifyHOTPOptions.

Module GenerateURLOptions.
Record t : Type := { issuer : option string; account : option string }.
End GenerateURLOptions.

Module GenerateQRCodeOptions.
Record t : Type :=
  { seed : option string;
    issuer : option string;
    account : option string;
    url : option string }.
End GenerateQRCodeOptions.

(** ** The collaborators *)

(** [HMAC-SHA1(key, message)]. *)
Definition keyed_hash : Type := list byte -> list byte -> list byte.

(** The secure random source, as the stream of the bytes it will give. *)
Definition random_source : Type := nat -> byte.

(** [crypto.randomBytes(1)]: the next byte, and the rest of the stream. *)
Definition randomBytes1 (src : random_source) : byte * random_source :=
  (src O, fun n => src (S n)).

(** [qr.toDataURL(text)]: the data URL, or the reason of the rejection. *)
Definition renderer : Type := string -> string + string.

Definition render (toDataURL : renderer) (text : string) : outcome string :=
  match toDataURL text with
  | inr image => Return image
  | inl msg => Throw (RenderError msg)
  end.

(** ** generateSeed *)

Fixpoint seed_loop (fuel : nat) (len : Z) (seed : string) (src : random_source)
  : outcome (string * random_source) :=
  match fuel with
  | O => OutOfFuel
  | S fuel' =>
      if Z.of_nat (length seed) <? len then
        let (buf, src') := randomBytes1 src in
        let newChar := Z.rem (Z_of_byte buf) 36 in
        let seed' :=
          if newChar <? 10 then seed ++ Number_toString newChar
          else seed ++ fromCharCode (newChar + 87) in
        if Z.of_nat (length seed') =? len then Return (seed', src')
        else seed_loop fuel' len seed' src'
      else Return (seed, src)
  end.

Definition generateSeed (options : option GenerateSeedOptions.t) (src : random_source)
  : outcome (string * random_source) :=
  let len := options ?. GenerateSeedOptions.length ?? 48 in
  seed_loop (S (Z.to_nat len)) len "" src.

(** ** generateCode *)

Definition generateCode (hmac : keyed_hash) (seed : string) (counter : Z)
  (options : option GenerateCodeOptions.t) : outcome number :=
  let len := options ?. GenerateCodeOptions.length ?? 6 in
  let* counterBuf := writeBigInt64BE counter in
  let token := to_hex (hmac (list_byte_of_string seed) counterBuf) in
  let tokenBuf := from_hex token in
  let offset := js_and (buf_get tokenBuf 19) 0xf in
  let code :=
    js_or (js_or (js_or (js_shl (js_and (buf_get tokenBuf offset) 0x7f) 24)
                        (js_shl (js_and (buf_get tokenBuf (offset + 1)) 0xff) 16))
                 (js_shl (js_and (buf_get tokenBuf (offset + 2)) 0xff) 8))
          (js_and (buf_get tokenBuf (offset + 3)) 0xff) in
  Return (parseInt (padStart (slice (Number_toString code) (- len)) len "0")).

(** ** verifyHOTP *)

(** [for (let i = first; i <= last; i++) if (generateCode(..) === code) return true].
    The counter is stepped in [Z].  This is the arithmetic of the program
    as long as the counters are safe integers; from 2^53 on the increment
    of a double is not exact any more (there [i++] can leave [i] as it is),
    and the loop below does not describe the program.  The properties of
    the loop are therefore stated for windows of safe integers, or for
    calls that the first iteration settles. *)
Fixpoint hotp_loop (hmac : keyed_hash) (fuel : nat) (seed : string) (code : number)
  (len : option Z) (i last : Z) : outcome bool :=
  match fuel with
  | O => OutOfFuel
  | S fuel' =>
      if i <=? last then
        let* c := generateCode hmac seed i (Some {| GenerateCodeOptions.length := len |}) in
        if strict_equal c code then Return true
        else hotp_loop hmac fuel' seed code len (i + 1) last
      else Return false
  end.

(** The bounds [counter - before] and [counter + after] are computed in
    [Z]: exactly what the program computes when they are safe integers, or
    doubles of their own. *)
Definition verifyHOTP (hmac : keyed_hash) (seed : string) (code : number) (counter : Z)
  (options : option VerifyHOTPOptions.t) : outcome bool :=
  let before := options ?. VerifyHOTPOptions.allowedBeforeDrift ?? 0 in
  let after := options ?. VerifyHOTPOptions.allowedAfterDrift ?? 0 in
  hotp_loop hmac (S (Z.to_nat (counter + after - (counter - before) + 1)))
    seed code (options ?. VerifyHOTPOptions.length) (counter - before) (counter + after).

(** ** verifyTOTP *)

(** [now] is the value of [Date.now()], in milliseconds.  A zero [step]
    makes the counter infinite, which [BigInt] refuses, or [NaN] when [now]
    is zero too, and then the loop of [verifyHOTP] runs no iteration. *)
Definition verifyTOTP (hmac : keyed_hash) (now : Z) (seed : string) (code : number)
  (options : option VerifyTOTPOptions.t) : outcome bool :=
  let step := options ?. VerifyTOTPOptions.step ?? 30 in
  if step =? 0 then
    if now =? 0 then Return false else Throw RangeError
  else
    let counter := Qfloor (inject_Z now / inject_Z 1000 / inject_Z step) in
    verifyHOTP hmac seed code counter
      (Some {| VerifyHOTPOptions.length := options ?. VerifyTOTPOptions.length;
               VerifyHOTPOptions.allowedBeforeDrift := None;
               VerifyHOTPOptions.allowedAfterDrift := None |}).

(** ** generateURL *)

Definition generateURL (seed : string) (options : option GenerateURLOptions.t) : string :=
  let encodedSeed := remove_all "=" (base32.encode seed) in
  let url := "otpauth://totp/" in
  let url :=
    if truthy (options ?. GenerateURLOptions.issuer)
    then url ++ "?issuer=" ++ encodeURIComponent (options ?. GenerateURLOptions.issuer ?? "")
    else url in
  let url :=
    if truthy (options ?. GenerateURLOptions.account)
    then url ++ encodeURIComponent (options ?. GenerateURLOptions.account ?? "")
    else url in
  url ++ "&secret=" ++ encodeURIComponent encodedSeed.

(** ** generateQRCode *)

Definition generateQRCode (toDataURL : renderer) (options : GenerateQRCodeOptions.t)
  : outcome string :=
  if negb (truthy (GenerateQRCodeOptions.seed options))
     && negb (truthy (GenerateQRCodeOptions.url options))
  then Throw MissingSeedOrURL
  else if truthy (GenerateQRCodeOptions.url options)
  then render toDataURL (GenerateQRCodeOptions.url options ?? "")
  else
    match GenerateQRCodeOptions.seed options with
    | Some seed =>
        render toDataURL
          (generateURL seed
             (Some {| GenerateURLOptions.issuer := GenerateQRCodeOptions.issuer options;
                      GenerateURLOptions.account := GenerateQRCodeOptions.account options |}))
    | None => Throw TypeError
    end.

(** ** The reads of the digest, with the case of a read outside made explicit *)

(** [buf[i]], where [missing] is what a read outside the buffer gives. *)
Definition read_byte (missing : outcome Z) (buf : list byte) (i : Z) : outcome Z :=
  match buf_get buf i with
  | Some b => Return b
  | None => missing
  end.

(** [generateCode] with each of its five reads of [tokenBuf] going through
    [read_byte].  In JavaScript a read outside gives [undefined], which the
    operator [&] takes as 0: this is [missing = Return 0].  With
    [missing = Throw e] a read outside would show as the error [e]. *)
Definition generateCode_reading (missing : outcome Z) (hmac : keyed_hash)
  (seed : string) (counter : Z) (options : option GenerateCodeOptions.t)
  : outcome number :=
  let len := options ?. GenerateCodeOptions.length ?? 6 in
  let* counterBuf := writeBigInt64BE counter in
  let token := to_hex (hmac (list_byte_of_string seed) counterBuf) in
  let tokenBuf := from_hex token in
  let* last := read_byte missing tokenBuf 19 in
  let offset := js_and (Some last) 0xf in
  let* b0 := read_byte missing tokenBuf offset in
  let* b1 := read_byte missing tokenBuf (offset + 1) in
  let* b2 := read_byte missing tokenBuf (offset + 2) in
  let* b3 := read_byte missing tokenBuf (offset + 3) in
  let code :=
    js_or (js_or (js_or (js_shl (js_and (Some b0) 0x7f) 24)
                        (js_shl (js_and (Some b1) 0xff) 16))
                 (js_shl (js_and (Some b2) 0xff) 8))
          (js_and (Some b3) 0xff) in
  Return (parseInt (padStart (slice (Number_toString code) (- len)) len "0")).

(** ** The derivation of RFC 4226, in the words of the specification *)

Module RFC4226.

(** The counter as an 8-byte big-endian integer. *)
Definition counter_bytes (counter : Z) : list byte :=
  map (fun k => byte_of_Z (counter mod 2 ^ 64 / 256 ^ k)) [7; 6; 5; 4; 3; 2; 1; 0].

Definition byte_at (digest : list byte) (i : Z) : Z :=
  Z_of_byte (nth (Z.to_nat i) digest x00).

Definition offset (digest : list byte) : Z := Z.land (byte_at digest 19) 0x0F.

Definition truncated (digest : list byte) : Z :=
  let o := offset digest in
  Z.lor (Z.lor (Z.lor (Z.shiftl (Z.land (byte_at digest o) 0x7F) 24)
                      (Z.shiftl (byte_at digest (o + 1)) 16))
               (Z.shiftl (byte_at digest (o + 2)) 8))
        (byte_at digest (o + 3)).

(** The last [L] characters of a text, the whole text if it is shorter. *)
Definition last_characters (L : Z) (text : string) : string :=
  drop (length text - Z.to_nat L) text.

Definition code (hmac : keyed_hash) (seed : string) (counter L : Z) : Z :=
  truncated (hmac (list_byte_of_string seed) (counter_bytes counter)) mod 10 ^ L.

End RFC4226.

(** The safe integers, on which the counter arithmetic is exact. *)
Definition safe_integer (z : Z) : Prop := - (2 ^ 53 - 1) <= z <= 2 ^ 53 - 1.

(** The counters that fit the signed 64-bit encoding. *)
Definition int64 (z : Z) : Prop := - 2 ^ 63 <= z < 2 ^ 63.

(** ** The verification window, in the words of the specification *)

(** [n] consecutive counters in ascending order, from [first]. *)
Fixpoint ascending (first : Z) (n : nat) : list Z :=
  match n with
  | O => []
  | S n' => first :: ascending (first + 1) n'
  end.

(** The counters tried one after the other; the first match ends the
    scan, and [false] is the answer when none is left. *)
Fixpoint scan (hmac : keyed_hash) (seed : string) (code : number) (len : option Z)
  (counters : list Z) : outcome bool :=
  match counters with
  | [] => Return false
  | i :: rest =>
      let* c := generateCode hmac seed i (Some {| GenerateCodeOptions.length := len |}) in
      if strict_equal c code then Return true else scan hmac seed code len rest
  end.

(** [generateCode(seed, i, {length}) === code]. *)
Definition code_matches (hmac : keyed_hash) (seed : string) (code : number)
  (len : option Z) (i : Z) : Prop :=
  exists c,
    generateCode hmac seed i (Some {| GenerateCodeOptions.length := len |}) = Return c
    /\ strict_equal c code = true.

(** ** Seeds and provisioning URIs, in the words of the specification *)

(** The base-36 digit of a value: ['0'-'9'] for 0-9, ['a'-'z'] for 10-35. *)
Definition base36_char (v : Z) : ascii :=
  if v <? 10 then ascii_of_N (Z.to_N (48 + v))
  else ascii_of_N (Z.to_N (97 + (v - 10))).

Definition is_base36 (c : ascii) : bool :=
  let n := Z.of_N (N_of_ascii c) in
  ((48 <=? n) && (n <=? 57)) || ((97 <=? n) && (n <=? 122)).

Fixpoint all_chars (p : ascii -> bool) (s : string) : bool :=
  match s with
  | EmptyString => true
  | String c rest => p c && all_chars p rest
  end.

(** The characters of a Base32 text: unreserved ones, and the padding. *)
Definition unreserved_or_pad (c : ascii) : bool := unreserved c || (c =? "=")%char.

(** One character for each of the first [n] random bytes. *)
Fixpoint seed_text (n : nat) (src : random_source) : string :=
  match n with
  | O => EmptyString
  | S n' =>
      String (base36_char (Z_of_byte (src O) mod 36))
             (seed_text n' (fun k => src (S k)))
  end.

(** The URI with an issuer part when an issuer is present and an account
    part when an account is present. *)
Definition provisioning_uri (seed : string) (issuer account : option string) : string :=
  "otpauth://totp/"
  ++ match issuer with
     | Some i => "?issuer=" ++ encodeURIComponent i
     | None => ""
     end
  ++ match account with
     | Some a => encodeURIComponent a
     | None => ""
     end
  ++ "&secret=" ++ encodeURIComponent (remove_all "=" (base32.encode seed)).

(** An option that counts as given only when it is not empty. *)
Definition non_empty (x : option string) : option string :=
  if truthy x then x else None.

(** A renderer, a random source and a seed for the concrete runs; the seed
    is the one of the test vectors of RFC 4226. *)
Definition sample_renderer : renderer :=
  fun text => inr ("data:image/png;base64," ++ text).

Definition sample_source : random_source :=
  fun n => byte_of_Z (37 * Z.of_nat n + 5).

Definition rfc_seed : string := "12345678901234567890".

(** ** Auxiliary notions on decimal text *)

(** Text made of decimal digits only. *)
Fixpoint digits_only (s : string) : bool :=
  match s with
  | EmptyString => true
  | String c rest =>
      match digit_value c with
      | Some _ => digits_only rest
      | None => false
      end
  end.

(** The number that a text of decimal digits denotes, after [acc]. *)
Fixpoint digits_value (s : string) (acc : Z) : Z :=
  match s with
  | EmptyString => acc
  | String c rest => digits_value rest (10 * acc + (digit_value c ?? 0))
  end.

Fixpoint zeros (n : nat) : string :=
  match n with
  | O => EmptyString
  | S n' => String "0" (zeros n')
  end.

Fixpoint take (n : nat) (s : string) : string :=
  match n, s with
  | S n', String c rest => String c (take n' rest)
  | _, _ => EmptyString
  end.

(** ** Auxiliary notions on characters and bytes *)

(** The number of occurrences of a character in a text. *)
Fixpoint count_char (c : ascii) (s : string) : nat :=
  match s with
  | EmptyString => O
  | String a rest => ((if (a =? c)%char then 1 else 0) + count_char c rest)%nat
  end.

(** The 256 bytes. *)
Definition all_bytes : list byte :=
  map (fun n => byte_of_Z (Z.of_nat n)) (seq 0 256).

(** The bytes for which [generateSeed], asked for one character, gives the
    character [c]. *)
Definition bytes_giving (c : ascii) : list byte :=
  filter
    (fun b =>
       match generateSeed (Some {| GenerateSeedOptions.length := Some 1 |})
               (fun _ => b) with
       | Return (String c' EmptyString, _) => (c' =? c)%char
       | _ => false
       end)
    all_bytes.

(** * Properties *)

(** ** Bytes *)

Lemma Z_of_byte_range (b : byte) : 0 <= Z_of_byte b < 256.
Proof.
  unfold Z_of_byte. pose proof (Byte.to_N_bounded b) as Hb.
  apply N2Z.inj_le in Hb. change (Z.of_N 255) with 255 in Hb.
  pose proof (N2Z.is_nonneg (Byte.to_N b)). lia.
Qed.

Lemma byte_of_Z_of_byte (b : byte) : byte_of_Z (Z_of_byte b) = b.
Proof.
  unfold byte_of_Z. rewrite Z.mod_small by apply Z_of_byte_range.
  unfold Z_of_byte. rewrite N2Z.id, Byte.of_to_N. reflexivity.
Qed.

Lemma Z_of_byte_of_Z (z : Z) : Z_of_byte (byte_of_Z z) = z mod 256.
Proof.
  unfold byte_of_Z, Z_of_byte.
  assert (Hm : 0 <= z mod 256 < 256) by (apply Z.mod_pos_bound; lia).
  destruct (Byte.of_N (Z.to_N (z mod 256))) as [b|] eqn:E.
  - apply Byte.to_of_N in E. rewrite E. apply Z2N.id. lia.
  - apply Byte.of_N_None_iff in E. lia.
Qed.

Lemma byte_of_Z_mod (z : Z) : byte_of_Z (z mod 256) = byte_of_Z z.
Proof. unfold byte_of_Z. rewrite Z.mod_mod by lia. reflexivity. Qed.

(** ** Hexadecimal text *)

Ltac below_16 d H :=
  assert (d = 0 \/ d = 1 \/ d = 2 \/ d = 3 \/ d = 4 \/ d = 5 \/ d = 6 \/ d = 7
          \/ d = 8 \/ d = 9 \/ d = 10 \/ d = 11 \/ d = 12 \/ d = 13 \/ d = 14
          \/ d = 15) as H by lia.

Lemma hex_value_digit (d : Z) : 0 <= d < 16 -> hex_value (hex_digit d) = Some d.
Proof.
  intros Hd. below_16 d H.
  repeat (destruct H as [-> | H]; [reflexivity |]). subst d. reflexivity.
Qed.

Lemma from_hex_to_hex (buf : list byte) : from_hex (to_hex buf) = buf.
Proof.
  induction buf as [|b rest IH]; [reflexivity|].
  pose proof (Z_of_byte_range b) as Hb. cbn [to_hex from_hex].
  rewrite !hex_value_digit.
  - rewrite IH. f_equal.
    rewrite <- (Z.div_mod (Z_of_byte b) 16) by lia. apply byte_of_Z_of_byte.
  - apply Z.mod_pos_bound. lia.
  - split; [apply Z.div_pos; lia | apply Z.div_lt_upper_bound; lia].
Qed.

(** ** 32-bit operators on small operands *)

Lemma ToInt32_small (z : Z) : - 2 ^ 31 <= z < 2 ^ 31 -> ToInt32 z = z.
Proof. intros H. unfold ToInt32. rewrite Z.mod_small; lia. Qed.

Lemma lor_below (n a b : Z) :
  0 < n -> 0 <= a < 2 ^ n -> 0 <= b < 2 ^ n -> 0 <= Z.lor a b < 2 ^ n.
Proof.
  intros Hn Ha Hb.
  assert (H0 : 0 <= Z.lor a b) by (apply Z.lor_nonneg; lia).
  split; [exact H0|].
  destruct (Z.eq_dec (Z.lor a b) 0) as [E|E].
  - rewrite E. apply Z.pow_pos_nonneg; lia.
  - apply Z.log2_lt_pow2; [lia|].
    rewrite Z.log2_lor by lia.
    assert (La : Z.log2 a < n).
    { destruct (Z.eq_dec a 0) as [->|]; [exact Hn | apply Z.log2_lt_pow2; lia]. }
    assert (Lb : Z.log2 b < n).
    { destruct (Z.eq_dec b 0) as [->|]; [exact Hn | apply Z.log2_lt_pow2; lia]. }
    lia.
Qed.

Lemma land_mask (k a : Z) : 0 <= k -> 0 <= Z.land a (Z.ones k) < 2 ^ k.
Proof.
  intros Hk. rewrite Z.land_ones by exact Hk. apply Z.mod_pos_bound.
  apply Z.pow_pos_nonneg; lia.
Qed.

Lemma land_byte_255 (b : Z) : 0 <= b < 256 -> Z.land b 255 = b.
Proof.
  intros H. change 255 with (Z.ones 8). rewrite Z.land_ones by lia.
  apply Z.mod_small. exact H.
Qed.

Lemma js_and_small (b m : Z) :
  0 <= b < 256 -> 0 <= m < 256 -> js_and (Some b) m = Z.land b m.
Proof.
  intros Hb Hm. unfold js_and, ToInt32_opt. rewrite !ToInt32_small; lia.
Qed.

Lemma js_shl_small (a n : Z) :
  0 <= n < 32 -> 0 <= a -> a * 2 ^ n < 2 ^ 31 -> js_shl a n = Z.shiftl a n.
Proof.
  intros Hn Ha Hlt. unfold js_shl.
  assert (P : 0 < 2 ^ n) by (apply Z.pow_pos_nonneg; lia).
  rewrite Z.mod_small by lia.
  rewrite (ToInt32_small a) by nia.
  rewrite Z.shiftl_mul_pow2 by lia.
  apply ToInt32_small. nia.
Qed.

Lemma js_or_small (a b : Z) :
  0 <= a < 2 ^ 31 -> 0 <= b < 2 ^ 31 -> js_or a b = Z.lor a b.
Proof. intros Ha Hb. unfold js_or. rewrite !ToInt32_small; lia. Qed.

(** ** The counter buffer *)

Lemma counter_byte (c k : Z) :
  0 <= k <= 7 ->
  Z.land (Z.shiftr c (8 * k)) 255 = (c mod 2 ^ 64 / 256 ^ k) mod 256.
Proof.
  intros Hk.
  change 255 with (Z.ones 8). rewrite Z.land_ones by lia.
  replace (256 ^ k) with (2 ^ (8 * k))
    by (change 256 with (2 ^ 8); rewrite <- Z.pow_mul_r by lia; reflexivity).
  rewrite <- !Z.shiftr_div_pow2 by lia.
  change 256 with (2 ^ 8).
  rewrite <- !Z.land_ones by lia.
  apply Z.bits_inj'. intros n Hn.
  rewrite !Z.land_spec, !Z.shiftr_spec, Z.land_spec by lia.
  destruct (Z.ltb_spec n 8) as [Hlt|Hge].
  - rewrite (Z.ones_spec_low 64 (n + 8 * k)) by lia.
    rewrite andb_true_r. reflexivity.
  - rewrite (Z.ones_spec_high 8 n) by lia. rewrite !andb_false_r. reflexivity.
Qed.

Lemma writeBigInt64BE_encodes (c : Z) :
  int64 c -> writeBigInt64BE c = Return (RFC4226.counter_bytes c).
Proof.
  intros [Hlo Hhi]. unfold writeBigInt64BE.
  destruct (Z.leb_spec (- 2 ^ 63) c); [|lia].
  destruct (Z.ltb_spec c (2 ^ 63)); [|lia].
  cbn [andb]. f_equal. unfold RFC4226.counter_bytes.
  apply map_ext_in. intros k Hk.
  assert (0 <= k <= 7) by (cbn in Hk; lia).
  rewrite counter_byte by assumption. apply byte_of_Z_mod.
Qed.

Lemma writeBigInt64BE_refuses (c : Z) :
  ~ int64 c -> writeBigInt64BE c = Throw RangeError.
Proof.
  intros Hc. unfold writeBigInt64BE, int64 in *.
  destruct (Z.leb_spec (- 2 ^ 63) c); destruct (Z.ltb_spec c (2 ^ 63));
    cbn [andb]; try reflexivity. lia.
Qed.

(** ** Dynamic truncation *)

Section Truncation.

Variable d : list byte.
Hypothesis d_length : List.length d = 20%nat.

Lemma buf_get_inside (i : Z) :
  0 <= i < 20 -> buf_get d i = Some (RFC4226.byte_at d i).
Proof.
  intros Hi. unfold buf_get, RFC4226.byte_at.
  destruct (Z.ltb_spec i 0); [lia|].
  rewrite (nth_error_nth' d x00) by (rewrite d_length; lia). reflexivity.
Qed.

Lemma byte_at_range (i : Z) : 0 <= RFC4226.byte_at d i < 256.
Proof. apply Z_of_byte_range. Qed.

Lemma offset_range : 0 <= RFC4226.offset d <= 15.
Proof.
  unfold RFC4226.offset. change 15 with (Z.ones 4) at 1 2.
  pose proof (land_mask 4 (RFC4226.byte_at d 19)). lia.
Qed.

Lemma js_offset : js_and (buf_get d 19) 15 = RFC4226.offset d.
Proof.
  rewrite buf_get_inside by lia.
  apply js_and_small; [apply byte_at_range | lia].
Qed.

Lemma js_byte (i : Z) :
  0 <= i < 20 -> js_and (buf_get d i) 255 = RFC4226.byte_at d i.
Proof.
  intros Hi. rewrite buf_get_inside by exact Hi.
  rewrite js_and_small by (try apply byte_at_range; lia).
  apply land_byte_255, byte_at_range.
Qed.

Lemma js_high_byte (i : Z) :
  0 <= i < 20 ->
  js_and (buf_get d i) 127 = Z.land (RFC4226.byte_at d i) 127
  /\ 0 <= Z.land (RFC4226.byte_at d i) 127 < 128.
Proof.
  intros Hi. rewrite buf_get_inside by exact Hi.
  rewrite js_and_small by (try apply byte_at_range; lia).
  split; [reflexivity|]. change 127 with (Z.ones 7).
  apply (land_mask 7). lia.
Qed.

(** The 32-bit expression of [generateCode] computes the truncated value
    of RFC 4226, a 31-bit number. *)
Lemma truncation_refines :
  let offset := js_and (buf_get d 19) 15 in
  js_or (js_or (js_or (js_shl (js_and (buf_get d offset) 127) 24)
                      (js_shl (js_and (buf_get d (offset + 1)) 255) 16))
               (js_shl (js_and (buf_get d (offset + 2)) 255) 8))
        (js_and (buf_get d (offset + 3)) 255)
  = RFC4226.truncated d
  /\ 0 <= RFC4226.truncated d < 2 ^ 31.
Proof.
  cbv zeta. rewrite js_offset. unfold RFC4226.truncated.
  pose proof offset_range as Ho. set (o := RFC4226.offset d) in *.
  destruct (js_high_byte o) as [E0 R0]; [lia|].
  rewrite E0, !js_byte by lia.
  pose proof (byte_at_range (o + 1)) as R1.
  pose proof (byte_at_range (o + 2)) as R2.
  pose proof (byte_at_range (o + 3)) as R3.
  set (b0 := Z.land (RFC4226.byte_at d o) 127) in *.
  set (b1 := RFC4226.byte_at d (o + 1)) in *.
  set (b2 := RFC4226.byte_at d (o + 2)) in *.
  set (b3 := RFC4226.byte_at d (o + 3)) in *.
  rewrite (js_shl_small b0 24), (js_shl_small b1 16), (js_shl_small b2 8) by lia.
  assert (S0 : 0 <= Z.shiftl b0 24 < 2 ^ 31) by (rewrite Z.shiftl_mul_pow2; lia).
  assert (S1 : 0 <= Z.shiftl b1 16 < 2 ^ 31) by (rewrite Z.shiftl_mul_pow2; lia).
  assert (S2 : 0 <= Z.shiftl b2 8 < 2 ^ 31) by (rewrite Z.shiftl_mul_pow2; lia).
  assert (S3 : 0 <= b3 < 2 ^ 31) by lia.
  pose proof (lor_below 31 _ _ ltac:(lia) S0 S1) as L1.
  pose proof (lor_below 31 _ _ ltac:(lia) L1 S2) as L2.
  pose proof (lor_below 31 _ _ ltac:(lia) L2 S3) as L3.
  rewrite (js_or_small _ _ S0 S1), (js_or_small _ _ L1 S2), (js_or_small _ _ L2 S3).
  split; [reflexivity | exact L3].
Qed.

End Truncation.

(** ** Strings *)

Lemma length_append (s t : string) :
  length (s ++ t) = (length s + length t)%nat.
Proof. induction s as [|c s IH]; cbn; [reflexivity | rewrite IH; reflexivity]. Qed.

Lemma append_empty_r (s : string) : s ++ "" = s.
Proof. induction s as [|c s IH]; cbn; [reflexivity | rewrite IH; reflexivity]. Qed.

Lemma append_assoc (s t u : string) : (s ++ t) ++ u = s ++ (t ++ u).
Proof. induction s as [|c s IH]; cbn; [reflexivity | rewrite IH; reflexivity]. Qed.

Lemma take_drop (n : nat) (s : string) : take n s ++ drop n s = s.
Proof.
  revert s. induction n as [|n IH]; intros [|c s]; cbn; try reflexivity.
  rewrite IH. reflexivity.
Qed.

Lemma length_drop (n : nat) (s : string) : length (drop n s) = (length s - n)%nat.
Proof.
  revert s. induction n as [|n IH]; intros [|c s]; cbn; try reflexivity.
  apply IH.
Qed.

Lemma length_zeros (n : nat) : length (zeros n) = n.
Proof. induction n as [|n IH]; cbn; [reflexivity | rewrite IH; reflexivity]. Qed.

Lemma fill_zero (n : nat) : fill n "0" "0" = zeros n.
Proof.
  assert (H : forall m, fill m "" "0" = zeros m).
  { induction m as [|m IH]; cbn; [reflexivity | rewrite IH; reflexivity]. }
  destruct n as [|n]; cbn; [reflexivity | rewrite H; reflexivity].
Qed.

(** ** Decimal text *)

Lemma digit_value_char (d : Z) : 0 <= d < 10 -> digit_value (digit_char d) = Some d.
Proof.
  intros Hd.
  assert (H : d = 0 \/ d = 1 \/ d = 2 \/ d = 3 \/ d = 4 \/ d = 5 \/ d = 6
              \/ d = 7 \/ d = 8 \/ d = 9) by lia.
  repeat (destruct H as [-> | H]; [reflexivity |]). subst d. reflexivity.
Qed.

Lemma digit_value_range (c : ascii) (v : Z) : digit_value c = Some v -> 0 <= v < 10.
Proof.
  unfold digit_value. intros H.
  destruct (Z.leb_spec 48 (Z.of_N (N_of_ascii c)));
    destruct (Z.leb_spec (Z.of_N (N_of_ascii c)) 57);
    cbn [andb] in H; inversion H; lia.
Qed.

Lemma digits_only_app (s t : string) :
  digits_only (s ++ t) = digits_only s && digits_only t.
Proof.
  induction s as [|c s IH]; cbn; [reflexivity|].
  destruct (digit_value c); [exact IH | reflexivity].
Qed.

Lemma digits_only_zeros (n : nat) : digits_only (zeros n) = true.
Proof. induction n as [|n IH]; cbn; [reflexivity | exact IH]. Qed.

Lemma digits_value_app (s t : string) (acc : Z) :
  digits_value (s ++ t) acc = digits_value t (digits_value s acc).
Proof. revert acc. induction s as [|c s IH]; intros acc; cbn; [reflexivity | apply IH]. Qed.

Lemma digits_value_zeros (n : nat) (s : string) :
  digits_value (zeros n ++ s) 0 = digits_value s 0.
Proof. induction n as [|n IH]; cbn; [reflexivity | exact IH]. Qed.

(** A text of [k] digits after [acc] denotes [acc * 10^k + v] with
    [0 <= v < 10^k]. *)
Lemma digits_value_split (s : string) (acc : Z) :
  digits_only s = true ->
  digits_value s acc = acc * 10 ^ Z.of_nat (length s) + digits_value s 0
  /\ 0 <= digits_value s 0 < 10 ^ Z.of_nat (length s).
Proof.
  revert acc. induction s as [|c s IH]; intros acc Hs.
  - cbn. lia.
  - cbn [digits_only] in Hs. cbn [digits_value length].
    destruct (digit_value c) as [v|] eqn:Ec; [|discriminate].
    apply digit_value_range in Ec. cbn [nullish].
    destruct (IH (10 * acc + v) Hs) as [E1 _].
    destruct (IH (10 * 0 + v) Hs) as [E2 R].
    rewrite E1, E2. rewrite Nat2Z.inj_succ, Z.pow_succ_r by lia.
    set (p := 10 ^ Z.of_nat (length s)) in *.
    split; [ring | nia].
Qed.

Lemma parse_digits_value (s : string) (acc : Z) :
  digits_only s = true ->
  parse_digits s (Some acc) = Some (digits_value s acc).
Proof.
  revert acc. induction s as [|c s IH]; intros acc Hs; cbn; [reflexivity|].
  cbn [digits_only] in Hs.
  destruct (digit_value c) as [v|]; [|discriminate].
  cbn [nullish]. apply IH. exact Hs.
Qed.

Lemma parseInt_digits (s : string) :
  digits_only s = true -> s <> "" -> parseInt s = Num (digits_value s 0).
Proof.
  intros Hs Hne. destruct s as [|c s]; [congruence|].
  unfold parseInt. cbn [digits_only] in Hs.
  destruct (Ascii.eqb_spec c "-") as [->|_]; [discriminate|].
  cbn [parse_digits digits_value].
  destruct (digit_value c) as [v|]; [|discriminate].
  cbn [nullish]. rewrite parse_digits_value by exact Hs. reflexivity.
Qed.

Lemma decimal_acc (fuel : nat) (n : Z) (acc : string) :
  decimal fuel n acc = decimal fuel n "" ++ acc.
Proof.
  revert n acc. induction fuel as [|fuel IH]; intros n acc; cbn; [reflexivity|].
  destruct (n <? 10); [reflexivity|].
  rewrite (IH _ (String _ acc)), (IH _ (String _ "")), append_assoc. reflexivity.
Qed.

Lemma decimal_spec (fuel : nat) (n : Z) :
  0 <= n < 2 ^ Z.of_nat fuel ->
  digits_only (decimal fuel n "") = true
  /\ digits_value (decimal fuel n "") 0 = n
  /\ (fuel <> O -> decimal fuel n "" <> "").
Proof.
  revert n. induction fuel as [|fuel IH]; intros n Hn.
  - cbn in Hn. assert (n = 0) by lia. subst n. cbn. repeat split. congruence.
  - cbn [decimal].
    assert (Hd : 0 <= n mod 10 < 10) by (apply Z.mod_pos_bound; lia).
    pose proof (digit_value_char _ Hd) as Ec.
    destruct (Z.ltb_spec n 10) as [Hlt|Hge].
    + rewrite Z.mod_small in * by lia. cbn. rewrite Ec. cbn.
      repeat split. discriminate.
    + rewrite decimal_acc.
      rewrite Nat2Z.inj_succ, Z.pow_succ_r in Hn by lia.
      assert (Hq : 0 <= n / 10 < 2 ^ Z.of_nat fuel).
      { assert (P : 0 < 2 ^ Z.of_nat fuel) by (apply Z.pow_pos_nonneg; lia).
        split; [apply Z.div_pos; lia|]. apply Z.div_lt_upper_bound; lia. }
      destruct (IH _ Hq) as (D & V & _).
      rewrite digits_only_app, digits_value_app, D, V.
      cbn [digits_only digits_value andb]. rewrite Ec. cbn [nullish].
      repeat split.
      * pose proof (Z.div_mod n 10 ltac:(lia)). lia.
      * intros _. destruct (decimal fuel (n / 10) ""); discriminate.
Qed.

(** The text of a non-negative integer: decimal digits that denote it. *)
Lemma Number_toString_spec (n : Z) :
  0 <= n ->
  digits_only (Number_toString n) = true
  /\ digits_value (Number_toString n) 0 = n
  /\ Number_toString n <> "".
Proof.
  intros Hn. unfold Number_toString.
  destruct (Z.ltb_spec n 0); [lia|].
  destruct (decimal_spec (S (Z.to_nat (Z.log2 n))) n) as (D & V & NE).
  - rewrite Nat2Z.inj_succ, Z2Nat.id by apply Z.log2_nonneg.
    destruct (Z.eq_dec n 0) as [->|]; [cbn; lia|].
    pose proof (Z.log2_spec n). lia.
  - repeat split; [exact D | exact V | apply NE; discriminate].
Qed.

Lemma nonempty_length (s : string) : s <> "" <-> (0 < length s)%nat.
Proof. destruct s; cbn; split; intros; try congruence; lia. Qed.

Lemma slice_last (text : string) (L : Z) :
  1 <= L -> slice text (- L) = RFC4226.last_characters L text.
Proof.
  intros HL. unfold slice, RFC4226.last_characters.
  destruct (Z.ltb_spec (- L) 0); [|lia]. f_equal. lia.
Qed.

(** The last [L] characters of the text of [n] are digits, at most [L] of
    them, and denote [n mod 10^L]. *)
Lemma suffix_value (n L : Z) :
  0 <= n -> 1 <= L ->
  let suffix := RFC4226.last_characters L (Number_toString n) in
  digits_only suffix = true
  /\ (0 < length suffix)%nat
  /\ Z.of_nat (length suffix) <= L
  /\ digits_value suffix 0 = n mod 10 ^ L.
Proof.
  intros Hn HL. cbv zeta. unfold RFC4226.last_characters.
  destruct (Number_toString_spec n Hn) as (D & V & NE).
  set (text := Number_toString n) in *.
  apply nonempty_length in NE.
  set (k := (length text - Z.to_nat L)%nat).
  pose proof (take_drop k text) as Hsplit.
  pose proof (length_drop k text) as Hlen.
  set (suffix := drop k text) in *.
  rewrite <- Hsplit in D, V.
  rewrite digits_only_app in D. apply andb_prop in D. destruct D as [_ Ds].
  rewrite digits_value_app in V.
  destruct (digits_value_split suffix (digits_value (take k text) 0) Ds) as [E R].
  rewrite V in E.
  split; [exact Ds|]. split; [lia|]. split; [lia|].
  destruct (Z.leb_spec L (Z.of_nat (length text))) as [Hge|Hlt].
  - assert (Hl : Z.of_nat (length suffix) = L) by lia.
    rewrite Hl in *.
    apply Z.mod_unique_pos with (q := digits_value (take k text) 0); lia.
  - assert (Hk : k = O) by lia.
    rewrite Hk in E. cbn [take digits_value] in E.
    replace (digits_value suffix 0) with n in * by lia.
    symmetry. apply Z.mod_small.
    assert (10 ^ Z.of_nat (length suffix) <= 10 ^ L)
      by (apply Z.pow_le_mono_r; lia).
    lia.
Qed.

(** The text of [n], cut to its last [L] characters and padded with zeros,
    reads back as [n mod 10^L]. *)
Lemma last_digits (n L : Z) :
  0 <= n -> 1 <= L ->
  parseInt (padStart (slice (Number_toString n) (- L)) L "0") = Num (n mod 10 ^ L).
Proof.
  intros Hn HL. rewrite slice_last by exact HL.
  destruct (suffix_value n L Hn HL) as (Ds & NE & Hle & V).
  set (suffix := RFC4226.last_characters L (Number_toString n)) in *.
  unfold padStart.
  destruct (Z.leb_spec L (Z.of_nat (length suffix))) as [Hge|Hlt]; cbn [orb].
  - rewrite parseInt_digits; [| exact Ds | apply nonempty_length; exact NE].
    rewrite V. reflexivity.
  - change (("0" =? "")%string) with false. cbv iota.
    rewrite fill_zero, parseInt_digits.
    + rewrite digits_value_zeros, V. reflexivity.
    + rewrite digits_only_app, digits_only_zeros, Ds. reflexivity.
    + apply nonempty_length. rewrite length_append. lia.
Qed.

(** With length zero nothing is cut: [slice(-0)] keeps the whole text. *)
Lemma all_digits_kept (n : Z) :
  0 <= n ->
  parseInt (padStart (slice (Number_toString n) (- 0)) 0 "0") = Num n.
Proof.
  intros Hn. destruct (Number_toString_spec n Hn) as (D & V & NE).
  unfold slice. cbn [Z.opp Z.ltb Z.compare].
  rewrite Z.min_l by lia. cbn [Z.to_nat drop].
  unfold padStart. destruct (Z.leb_spec 0 (Z.of_nat (length (Number_toString n)))); [|lia].
  cbn [orb]. rewrite parseInt_digits by assumption. rewrite V. reflexivity.
Qed.

(** A non-negative length always yields a number. *)
Lemma code_text_is_number (n L : Z) :
  0 <= n -> 0 <= L ->
  exists v, parseInt (padStart (slice (Number_toString n) (- L)) L "0") = Num v.
Proof.
  intros Hn HL. destruct (Z.eq_dec L 0) as [->|].
  - exists n. apply all_digits_kept. exact Hn.
  - exists (n mod 10 ^ L). apply last_digits; lia.
Qed.

(** ** The keyed hash gives twenty bytes *)

Lemma length_be_bytes (n : nat) (x : Z) : List.length (SHA1.be_bytes n x) = n.
Proof. induction n as [|n IH]; cbn; [reflexivity | rewrite IH; reflexivity]. Qed.

Lemma sha1_digest_length (msg : list Z) : List.length (SHA1.digest msg) = 20%nat.
Proof.
  unfold SHA1.digest.
  destruct (SHA1.blocks _ _ _) as [[[[h0 h1] h2] h3] h4].
  rewrite !length_app, !length_be_bytes. reflexivity.
Qed.

Lemma hmac_sha1_length (key msg : list byte) :
  List.length (HMAC.hmac_sha1 key msg) = 20%nat.
Proof.
  unfold HMAC.hmac_sha1, HMAC.hmac_sha1_Z.
  rewrite length_map. apply sha1_digest_length.
Qed.

(** ** generateCode *)

Lemma js_and_undefined (m : Z) : js_and None m = js_and (Some 0) m.
Proof. reflexivity. Qed.

(** [generateCode] is [generateCode_reading] where a read outside the buffer
    counts as 0, whatever the keyed hash gives. *)
Lemma generateCode_reading_lenient (hmac : keyed_hash) (seed : string)
  (counter : Z) (options : option GenerateCodeOptions.t) :
  generateCode hmac seed counter options
  = generateCode_reading (Return 0) hmac seed counter options.
Proof.
  unfold generateCode, generateCode_reading.
  destruct (writeBigInt64BE counter) as [counterBuf|e|]; cbn [bind];
    try reflexivity.
  set (tokenBuf := from_hex (to_hex (hmac (list_byte_of_string seed) counterBuf))).
  unfold read_byte.
  destruct (buf_get tokenBuf 19) as [last|]; cbn [bind];
    rewrite ?js_and_undefined;
    match goal with
    | |- context [js_and (Some ?l) 15] => set (offset := js_and (Some l) 15)
    end;
    destruct (buf_get tokenBuf offset), (buf_get tokenBuf (offset + 1)),
             (buf_get tokenBuf (offset + 2)), (buf_get tokenBuf (offset + 3));
    cbn [bind]; rewrite ?js_and_undefined; reflexivity.
Qed.

Section Derivation.

Variable hmac : keyed_hash.
Hypothesis hmac_length : forall key msg, List.length (hmac key msg) = 20%nat.

Local Abbreviation digest_of seed counter :=
  (hmac (list_byte_of_string seed) (RFC4226.counter_bytes counter)).

(** What [generateCode] returns for an encodable counter: the truncated
    value, through its decimal text. *)
Lemma generateCode_text (seed : string) (counter : Z)
  (options : option GenerateCodeOptions.t) :
  int64 counter ->
  generateCode hmac seed counter options =
  let len := options ?. GenerateCodeOptions.length ?? 6 in
  Return (parseInt (padStart
                      (slice (Number_toString
                                (RFC4226.truncated (digest_of seed counter)))
                             (- len))
                      len "0")).
Proof.
  intros Hc. unfold generateCode.
  rewrite (writeBigInt64BE_encodes _ Hc). cbn [bind].
  rewrite from_hex_to_hex.
  destruct (truncation_refines _ (hmac_length (list_byte_of_string seed)
                                    (RFC4226.counter_bytes counter))) as [E _].
  cbv zeta in E |- *. rewrite E. reflexivity.
Qed.

Lemma generateCode_out_of_range (seed : string) (counter : Z)
  (options : option GenerateCodeOptions.t) :
  ~ int64 counter -> generateCode hmac seed counter options = Throw RangeError.
Proof.
  intros Hc. unfold generateCode.
  rewrite (writeBigInt64BE_refuses _ Hc). reflexivity.
Qed.

Lemma truncated_31_bits (seed : string) (counter : Z) :
  0 <= RFC4226.truncated (digest_of seed counter) < 2 ^ 31.
Proof. apply truncation_refines, hmac_length. Qed.

(** C1. For every seed, every counter of the signed 64-bit range and
    every length [L >= 1], [generateCode] returns the code of RFC 4226:
    the 31-bit dynamic truncation of the HMAC of the 8-byte big-endian
    counter, modulo [10^L], which is also the number that the last [L]
    characters of its decimal text denote. *)
Theorem generateCode_rfc4226 (seed : string) (counter L : Z) :
  int64 counter -> 1 <= L ->
  let truncated := RFC4226.truncated (digest_of seed counter) in
  generateCode hmac seed counter (Some {| GenerateCodeOptions.length := Some L |})
  = Return (Num (RFC4226.code hmac seed counter L))
  /\ RFC4226.code hmac seed counter L = truncated mod 10 ^ L
  /\ digits_value (RFC4226.last_characters L (Number_toString truncated)) 0
     = truncated mod 10 ^ L
  /\ 0 <= truncated < 2 ^ 31.
Proof.
  intros Hc HL. cbv zeta. split; [|split; [reflexivity | split]].
  - rewrite generateCode_text by exact Hc.
    cbn [field nullish GenerateCodeOptions.length]. cbv zeta.
    rewrite last_digits; [reflexivity | apply truncated_31_bits | exact HL].
  - apply suffix_value; [apply truncated_31_bits | exact HL].
  - apply truncated_31_bits.
Qed.

(** With the default length, six digits. *)
Corollary generateCode_default (seed : string) (counter : Z) :
  int64 counter ->
  generateCode hmac seed counter None
  = Return (Num (RFC4226.code hmac seed counter 6)).
Proof.
  intros Hc. rewrite generateCode_text by exact Hc.
  cbn [field nullish]. cbv zeta.
  rewrite last_digits; [reflexivity | apply truncated_31_bits | lia].
Qed.

(** A non-negative length gives a number, never [NaN]. *)
Lemma generateCode_number (seed : string) (counter : Z) (len : option Z) :
  int64 counter -> 0 <= len ?? 6 ->
  exists v,
    generateCode hmac seed counter (Some {| GenerateCodeOptions.length := len |})
    = Return (Num v).
Proof.
  intros Hc HL. rewrite generateCode_text by exact Hc.
  cbn [field GenerateCodeOptions.length]. cbv zeta.
  destruct (code_text_is_number _ _ (proj1 (truncated_31_bits seed counter)) HL)
    as [v Hv].
  exists v. rewrite Hv. reflexivity.
Qed.

(** What a read outside would give changes nothing: with a digest of
    twenty bytes no read of [generateCode] is outside. *)
Lemma generateCode_reading_inside (missing : outcome Z) (seed : string)
  (counter : Z) (options : option GenerateCodeOptions.t) :
  generateCode_reading missing hmac seed counter options
  = generateCode hmac seed counter options.
Proof.
  unfold generateCode_reading, generateCode.
  destruct (writeBigInt64BE counter) as [counterBuf|e|]; cbn [bind];
    try reflexivity.
  rewrite from_hex_to_hex.
  set (d := hmac (list_byte_of_string seed) counterBuf).
  assert (Hd : List.length d = 20%nat) by apply hmac_length.
  unfold read_byte. rewrite (buf_get_inside d Hd 19) by lia. cbn [bind].
  assert (Ho : 0 <= js_and (Some (RFC4226.byte_at d 19)) 15 <= 15).
  { rewrite <- (buf_get_inside d Hd 19) by lia. rewrite (js_offset d Hd).
    apply (offset_range d Hd). }
  set (o := js_and (Some (RFC4226.byte_at d 19)) 15) in *.
  rewrite (buf_get_inside d Hd o), (buf_get_inside d Hd (o + 1)),
          (buf_get_inside d Hd (o + 2)), (buf_get_inside d Hd (o + 3)) by lia.
  reflexivity.
Qed.

(** C9. Every read of the digest in [generateCode] is inside its twenty
    bytes.  [generateCode] is [generateCode_reading] where a read outside
    counts as 0, for any keyed hash; with a digest of twenty bytes its
    result is the same whatever a read outside would give, an error
    included, so that no read is outside: index 19 is inside, [offset] lies
    in [0, 15], and the four indices [offset .. offset + 3] are at most 18
    and give a byte. *)
Theorem generateCode_reads_in_bounds (seed : string) (counter : Z)
  (options : option GenerateCodeOptions.t) :
  (forall (h : keyed_hash) s c o,
      generateCode h s c o = generateCode_reading (Return 0) h s c o)
  /\ (forall missing,
        generateCode_reading missing hmac seed counter options
        = generateCode hmac seed counter options)
  /\ (forall counterBuf,
        let tokenBuf :=
          from_hex (to_hex (hmac (list_byte_of_string seed) counterBuf)) in
        let offset := js_and (buf_get tokenBuf 19) 0xf in
        List.length tokenBuf = 20%nat
        /\ (exists b, buf_get tokenBuf 19 = Some b)
        /\ 0 <= offset <= 15
        /\ forall k, 0 <= k <= 3 ->
             0 <= offset + k <= 18
             /\ exists b, buf_get tokenBuf (offset + k) = Some b).
Proof.
  split; [|split].
  - intros h s c o. apply generateCode_reading_lenient.
  - intros missing. apply generateCode_reading_inside.
  - intros counterBuf. cbv zeta. rewrite from_hex_to_hex.
    set (d := hmac (list_byte_of_string seed) counterBuf).
    assert (Hd : List.length d = 20%nat) by apply hmac_length.
    rewrite (js_offset d Hd). pose proof (offset_range d Hd) as Ho.
    split; [exact Hd|]. split.
    + eexists. apply (buf_get_inside d Hd). lia.
    + split; [exact Ho|]. intros k Hk. split; [lia|].
      eexists. apply (buf_get_inside d Hd). lia.
Qed.

End Derivation.

(** ** verifyHOTP and verifyTOTP *)

Lemma In_ascending (j first : Z) (n : nat) :
  In j (ascending first n) <-> first <= j < first + Z.of_nat n.
Proof.
  revert first. induction n as [|n IH]; intros first.
  - cbn. lia.
  - cbn [ascending In]. rewrite IH. lia.
Qed.

Lemma totp_counter (now s : Z) :
  0 < s -> Qfloor (inject_Z now / inject_Z 1000 / inject_Z s) = now / (1000 * s).
Proof.
  intros Hs. rewrite Zdiv_Qdiv. apply Qfloor_comp.
  rewrite inject_Z_mult. field.
  intros H. change 0%Q with (inject_Z 0) in H.
  apply (proj1 (inject_Z_injective s 0)) in H. lia.
Qed.

Section Verification.

Variable hmac : keyed_hash.

(** The loop of [verifyHOTP] is the ascending scan with exit on the first
    match; the fuel given by [verifyHOTP] is enough. *)
Lemma hotp_loop_scan (seed : string) (code : number) (len : option Z)
  (fuel : nat) (i last : Z) :
  (Z.to_nat (last - i + 1) < fuel)%nat ->
  hotp_loop hmac fuel seed code len i last
  = scan hmac seed code len (ascending i (Z.to_nat (last - i + 1))).
Proof.
  revert i. induction fuel as [|fuel IH]; intros i Hfuel; [lia|].
  cbn [hotp_loop]. destruct (Z.leb_spec i last) as [Hle|Hgt].
  - replace (Z.to_nat (last - i + 1)) with (S (Z.to_nat (last - (i + 1) + 1))) in *
      by lia.
    cbn [ascending scan].
    destruct (generateCode hmac seed i _) as [c| |]; cbn [bind]; try reflexivity.
    destruct (strict_equal c code); [reflexivity|].
    apply IH. lia.
  - replace (Z.to_nat (last - i + 1)) with O by lia. reflexivity.
Qed.

Lemma verifyHOTP_scan (seed : string) (code : number) (counter : Z)
  (options : option VerifyHOTPOptions.t) :
  let before := options ?. VerifyHOTPOptions.allowedBeforeDrift ?? 0 in
  let after := options ?. VerifyHOTPOptions.allowedAfterDrift ?? 0 in
  verifyHOTP hmac seed code counter options
  = scan hmac seed code (options ?. VerifyHOTPOptions.length)
      (ascending (counter - before) (Z.to_nat (before + after + 1))).
Proof.
  cbv zeta. unfold verifyHOTP.
  set (before := options ?. VerifyHOTPOptions.allowedBeforeDrift ?? 0).
  set (after := options ?. VerifyHOTPOptions.allowedAfterDrift ?? 0).
  rewrite hotp_loop_scan by lia.
  do 2 f_equal. lia.
Qed.

Hypothesis hmac_length : forall key msg, List.length (hmac key msg) = 20%nat.

(** When every counter of the list can be encoded, the scan returns, and
    returns [true] exactly when one of them matches. *)
Lemma scan_decides (seed : string) (code : number) (len : option Z)
  (counters : list Z) :
  (forall j, In j counters -> int64 j) ->
  exists b,
    scan hmac seed code len counters = Return b
    /\ (b = true <-> exists j, In j counters /\ code_matches hmac seed code len j).
Proof.
  induction counters as [|i rest IH]; intros Hr.
  - exists false. split; [reflexivity|].
    split; [discriminate | intros (j & [] & _)].
  - cbn [scan].
    pose proof (generateCode_text hmac hmac_length seed i
                  (Some {| GenerateCodeOptions.length := len |})
                  (Hr i (or_introl eq_refl))) as Hi.
    cbv zeta in Hi. cbn [field GenerateCodeOptions.length] in Hi.
    rewrite Hi. cbn [bind].
    destruct (strict_equal _ code) eqn:Heq.
    + exists true. split; [reflexivity|]. split; [|reflexivity].
      intros _. exists i. split; [left; reflexivity|].
      eexists. split; [exact Hi | exact Heq].
    + destruct IH as (b & Hb & Hiff); [intros j Hj; apply Hr; right; exact Hj|].
      exists b. split; [exact Hb|]. rewrite Hiff. split.
      * intros (j & Hj & Hm). exists j. split; [right; exact Hj | exact Hm].
      * intros (j & [<-|Hj] & Hm); [|exists j; split; assumption].
        destruct Hm as (c & Hc & Hm). rewrite Hi in Hc.
        injection Hc as Hc. subst c. rewrite Heq in Hm. discriminate.
Qed.

Lemma safe_integer_int64 (z : Z) : safe_integer z -> int64 z.
Proof. unfold safe_integer, int64. lia. Qed.

Lemma verifyHOTP_decides (seed : string) (code : number) (counter : Z)
  (len before after : option Z) :
  0 <= before ?? 0 -> 0 <= after ?? 0 ->
  int64 (counter - before ?? 0) -> int64 (counter + after ?? 0) ->
  exists b,
    verifyHOTP hmac seed code counter
      (Some {| VerifyHOTPOptions.length := len;
               VerifyHOTPOptions.allowedBeforeDrift := before;
               VerifyHOTPOptions.allowedAfterDrift := after |}) = Return b
    /\ (b = true <->
        exists i, counter - before ?? 0 <= i <= counter + after ?? 0
                  /\ code_matches hmac seed code len i).
Proof.
  intros Hb Ha Hlo Hhi. rewrite verifyHOTP_scan.
  cbn [field VerifyHOTPOptions.length VerifyHOTPOptions.allowedBeforeDrift
         VerifyHOTPOptions.allowedAfterDrift]. cbv zeta.
  destruct (scan_decides seed code len
              (ascending (counter - before ?? 0)
                 (Z.to_nat (before ?? 0 + after ?? 0 + 1)))) as (b & Hs & Hiff).
  - intros j Hj. apply In_ascending in Hj. unfold int64 in *. lia.
  - exists b. split; [exact Hs|]. rewrite Hiff. split.
    + intros (j & Hj & Hm). exists j. split; [|exact Hm].
      apply In_ascending in Hj. lia.
    + intros (j & Hj & Hm). exists j. split; [|exact Hm].
      apply In_ascending. lia.
Qed.

Lemma strict_equal_Num (c : number) (v : Z) :
  strict_equal c (Num v) = true <-> c = Num v.
Proof.
  destruct c as [x|]; cbn; [|split; discriminate].
  rewrite Z.eqb_eq. split; [intros ->; reflexivity | intros H; injection H; auto].
Qed.

(** C4 (amended). For non-negative drifts and a window of safe integers,
    [verifyHOTP] returns, and returns [true] if and only if some counter
    [i] of the inclusive range [counter - before .. counter + after] has
    [generateCode(seed, i, {length}) === code].  The range is not empty,
    and the call is the ascending scan of its counters that stops at the
    first match and answers [false] when none is left. *)
Theorem verifyHOTP_window (seed : string) (code : number) (counter : Z)
  (len : option Z) (before after : Z) :
  0 <= before -> 0 <= after ->
  safe_integer (counter - before) -> safe_integer (counter + after) ->
  let options :=
    Some {| VerifyHOTPOptions.length := len;
            VerifyHOTPOptions.allowedBeforeDrift := Some before;
            VerifyHOTPOptions.allowedAfterDrift := Some after |} in
  counter - before <= counter + after
  /\ verifyHOTP hmac seed code counter options
     = scan hmac seed code len
         (ascending (counter - before) (Z.to_nat (before + after + 1)))
  /\ exists b,
       verifyHOTP hmac seed code counter options = Return b
       /\ (b = true <->
           exists i, counter - before <= i <= counter + after
                     /\ code_matches hmac seed code len i).
Proof.
  intros Hb Ha Hlo Hhi options. split; [lia|]. split.
  - apply (verifyHOTP_scan seed code counter options).
  - apply (verifyHOTP_decides seed code counter len (Some before) (Some after));
      try assumption; apply safe_integer_int64; assumption.
Qed.

(** C2 (amended). For every seed, every counter [0 <= c < 2^63] and every
    length [L >= 0] (or the default length), the code that [generateCode]
    returns at [c] verifies at [c] with the default window. *)
Theorem fresh_code_verifies (seed : string) (c : Z) (len : option Z) :
  0 <= c < 2 ^ 63 -> 0 <= len ?? 6 ->
  exists code,
    generateCode hmac seed c (Some {| GenerateCodeOptions.length := len |})
    = Return code
    /\ verifyHOTP hmac seed code c
         (Some {| VerifyHOTPOptions.length := len;
                  VerifyHOTPOptions.allowedBeforeDrift := None;
                  VerifyHOTPOptions.allowedAfterDrift := None |})
       = Return true.
Proof.
  intros Hc HL.
  assert (Hi : int64 c) by (unfold int64; lia).
  destruct (generateCode_number hmac hmac_length seed c len Hi HL) as [v Hv].
  exists (Num v). split; [exact Hv|].
  rewrite verifyHOTP_scan.
  cbn [field nullish VerifyHOTPOptions.length VerifyHOTPOptions.allowedBeforeDrift
         VerifyHOTPOptions.allowedAfterDrift]. cbv zeta.
  change (Z.to_nat (0 + 0 + 1)) with 1%nat. cbn [ascending scan].
  replace (c - 0) with c by lia.
  rewrite Hv. cbn [bind strict_equal]. rewrite Z.eqb_refl. reflexivity.
Qed.

(** C3 (amended). With drifts (0, 2), safe counters and a length
    [L >= 0]: the code of counter [c + 2] verifies at [c]; the code of
    counter [c + 3] is refused exactly when it differs from the codes of
    [c], [c + 1] and [c + 2]. *)
Theorem drift_window_edge (seed : string) (c : Z) (len : option Z) :
  safe_integer c -> safe_integer (c + 3) -> 0 <= len ?? 6 ->
  let options :=
    Some {| VerifyHOTPOptions.length := len;
            VerifyHOTPOptions.allowedBeforeDrift := Some 0;
            VerifyHOTPOptions.allowedAfterDrift := Some 2 |} in
  (exists code,
      generateCode hmac seed (c + 2) (Some {| GenerateCodeOptions.length := len |})
      = Return code
      /\ verifyHOTP hmac seed code c options = Return true)
  /\ (exists code b,
         generateCode hmac seed (c + 3) (Some {| GenerateCodeOptions.length := len |})
         = Return code
         /\ verifyHOTP hmac seed code c options = Return b
         /\ (b = false <->
             forall i, c <= i <= c + 2 ->
               generateCode hmac seed i (Some {| GenerateCodeOptions.length := len |})
               <> Return code)).
Proof.
  intros Hc Hc3 HL options. unfold safe_integer in Hc, Hc3.
  assert (W : forall code, exists b,
             verifyHOTP hmac seed code c options = Return b
             /\ (b = true <->
                 exists i, c <= i <= c + 2 /\ code_matches hmac seed code len i)).
  { intros code.
    destruct (verifyHOTP_decides seed code c len (Some 0) (Some 2))
      as (b & Hv & Hiff); cbn [nullish]; unfold int64; try lia.
    exists b. split; [exact Hv|]. rewrite Hiff. cbn [nullish].
    split; intros (i & Hi & Hm); exists i; (split; [lia | exact Hm]). }
  split.
  - destruct (generateCode_number hmac hmac_length seed (c + 2) len) as [v Hv];
      [unfold int64; lia | exact HL |].
    exists (Num v). split; [exact Hv|].
    destruct (W (Num v)) as (b & Hb & Hiff). rewrite Hb. f_equal.
    apply Hiff. exists (c + 2). split; [lia|].
    exists (Num v). split; [exact Hv | apply strict_equal_Num; reflexivity].
  - destruct (generateCode_number hmac hmac_length seed (c + 3) len) as [v Hv];
      [unfold int64; lia | exact HL |].
    exists (Num v). destruct (W (Num v)) as (b & Hb & Hiff).
    exists b. split; [exact Hv|]. split; [exact Hb|]. split.
    + intros -> i Hi Hg.
      assert (false = true); [|discriminate].
      apply Hiff. exists i. split; [exact Hi|].
      exists (Num v). split; [exact Hg | apply strict_equal_Num; reflexivity].
    + intros Hall. destruct b; [|reflexivity]. exfalso.
      destruct (proj1 Hiff eq_refl) as (i & Hi & c' & Hg & Hm).
      apply strict_equal_Num in Hm. subst c'. exact (Hall i Hi Hg).
Qed.

(** C5. For a step [s >= 1], [verifyTOTP] is [verifyHOTP] at the counter
    [floor(current_unix_seconds / s)] with zero drift in both directions,
    the clock being the input [now] (in milliseconds); this counter is the
    integer quotient of [now] by [1000 * s]. *)
Theorem verifyTOTP_delegates (now : Z) (seed : string) (code : number)
  (s : Z) (len : option Z) :
  1 <= s ->
  let current_unix_seconds : Q := (inject_Z now / inject_Z 1000)%Q in
  let counter := Qfloor (current_unix_seconds / inject_Z s) in
  verifyTOTP hmac now seed code
    (Some {| VerifyTOTPOptions.length := len; VerifyTOTPOptions.step := Some s |})
  = verifyHOTP hmac seed code counter
      (Some {| VerifyHOTPOptions.length := len;
               VerifyHOTPOptions.allowedBeforeDrift := Some 0;
               VerifyHOTPOptions.allowedAfterDrift := Some 0 |})
  /\ counter = now / (1000 * s).
Proof.
  intros Hs. cbv zeta. split; [|apply totp_counter; lia].
  unfold verifyTOTP.
  cbn [field nullish VerifyTOTPOptions.length VerifyTOTPOptions.step].
  destruct (Z.eqb_spec s 0) as [->|_]; [lia|]. reflexivity.
Qed.

End Verification.

(** ** generateSeed *)

Lemma Number_toString_digit (v : Z) :
  0 <= v < 10 -> Number_toString v = String (digit_char v) "".
Proof.
  intros Hv.
  assert (H : v = 0 \/ v = 1 \/ v = 2 \/ v = 3 \/ v = 4 \/ v = 5 \/ v = 6
              \/ v = 7 \/ v = 8 \/ v = 9) by lia.
  repeat (destruct H as [-> | H]; [reflexivity |]). subst v. reflexivity.
Qed.

Lemma is_base36_char (v : Z) : 0 <= v < 36 -> is_base36 (base36_char v) = true.
Proof.
  intros Hv. rewrite <- (Z2Nat.id v) by lia.
  assert (Hn : (Z.to_nat v < 36)%nat) by lia.
  revert Hn. generalize (Z.to_nat v). intros n Hn.
  do 36 (destruct n as [|n]; [reflexivity|]). lia.
Qed.

(** The character that one iteration of [generateSeed] appends. *)
Lemma appended_char (seed : string) (b : byte) :
  let newChar := Z.rem (Z_of_byte b) 36 in
  (if newChar <? 10 then seed ++ Number_toString newChar
   else seed ++ fromCharCode (newChar + 87))
  = seed ++ String (base36_char (Z_of_byte b mod 36)) "".
Proof.
  cbv zeta. pose proof (Z_of_byte_range b) as Hb.
  rewrite Z.rem_mod_nonneg by lia.
  assert (Hm : 0 <= Z_of_byte b mod 36 < 36) by (apply Z.mod_pos_bound; lia).
  unfold base36_char. destruct (Z.ltb_spec (Z_of_byte b mod 36) 10).
  - rewrite Number_toString_digit by lia. reflexivity.
  - unfold fromCharCode. do 4 f_equal. lia.
Qed.

Lemma length_seed_text (n : nat) (src : random_source) : length (seed_text n src) = n.
Proof.
  revert src. induction n as [|n IH]; intros src; cbn; [reflexivity|].
  rewrite IH. reflexivity.
Qed.

Lemma get_seed_text (n i : nat) (src : random_source) :
  (i < n)%nat ->
  get i (seed_text n src) = Some (base36_char (Z_of_byte (src i) mod 36)).
Proof.
  revert i src. induction n as [|n IH]; intros i src Hi; [lia|].
  destruct i as [|i]; cbn [seed_text get]; [reflexivity|].
  rewrite IH by lia. reflexivity.
Qed.

Lemma seed_text_alphabet (n : nat) (src : random_source) :
  all_chars is_base36 (seed_text n src) = true.
Proof.
  revert src. induction n as [|n IH]; intros src; cbn [seed_text all_chars];
    [reflexivity|].
  rewrite IH, is_base36_char; [reflexivity|].
  apply Z.mod_pos_bound. lia.
Qed.

(** The loop appends one character for each byte it draws, until the seed
    has [len] characters. *)
Lemma seed_loop_spec (fuel : nat) (len : Z) (seed : string) (src : random_source)
  (r : nat) :
  Z.of_nat (length seed) + Z.of_nat (S r) = len -> (S r <= fuel)%nat ->
  exists src',
    seed_loop fuel len seed src = Return (seed ++ seed_text (S r) src, src')
    /\ forall n, src' n = src (S r + n)%nat.
Proof.
  revert seed src r. induction fuel as [|fuel IH]; intros seed src r Hlen Hfuel; [lia|].
  cbn [seed_loop]. destruct (Z.ltb_spec (Z.of_nat (length seed)) len); [|lia].
  unfold randomBytes1. rewrite appended_char.
  set (ch := base36_char (Z_of_byte (src O) mod 36)).
  rewrite length_append. cbn [length].
  destruct (Z.eqb_spec (Z.of_nat (length seed + 1)) len) as [Heq|Hne].
  - assert (r = O) by lia. subst r. exists (fun n => src (S n)).
    split; reflexivity.
  - destruct r as [|r]; [lia|].
    destruct (IH (seed ++ String ch "") (fun n => src (S n)) r) as (src' & Hrun & Hsrc).
    + rewrite length_append. cbn [length]. lia.
    + lia.
    + exists src'. split.
      * rewrite Hrun, append_assoc. reflexivity.
      * intros n. rewrite Hsrc. reflexivity.
Qed.

(** C6. For every requested length [L >= 1], [generateSeed] returns a seed
    of exactly [L] characters; its [i]-th character is the base-36 digit of
    the [i]-th random byte modulo 36, so that every character is one of
    [0-9a-z]; it draws exactly [L] bytes. *)
Theorem generateSeed_text (L : Z) (src : random_source) :
  1 <= L ->
  exists seed src',
    generateSeed (Some {| GenerateSeedOptions.length := Some L |}) src
    = Return (seed, src')
    /\ Z.of_nat (length seed) = L
    /\ (forall i, (i < Z.to_nat L)%nat ->
          get i seed = Some (base36_char (Z_of_byte (src i) mod 36)))
    /\ all_chars is_base36 seed = true
    /\ (forall n, src' n = src (Z.to_nat L + n)%nat).
Proof.
  intros HL. unfold generateSeed.
  cbn [field nullish GenerateSeedOptions.length].
  destruct (seed_loop_spec (S (Z.to_nat L)) L "" src (Z.to_nat L - 1))
    as (src' & Hrun & Hsrc); [cbn [length]; lia | lia |].
  replace (S (Z.to_nat L - 1)) with (Z.to_nat L) in * by lia.
  cbn [append] in Hrun.
  exists (seed_text (Z.to_nat L) src), src'.
  split; [exact Hrun|]. split; [rewrite length_seed_text; lia|].
  split; [intros i Hi; apply get_seed_text; exact Hi|].
  split; [apply seed_text_alphabet | exact Hsrc].
Qed.

(** With the default length, forty-eight characters. *)
Corollary generateSeed_default (src : random_source) :
  exists seed src',
    generateSeed None src = Return (seed, src')
    /\ length seed = 48%nat
    /\ all_chars is_base36 seed = true.
Proof.
  destruct (seed_loop_spec 49 48 "" src 47) as (src' & Hrun & _);
    [reflexivity | lia |].
  exists (seed_text 48 src), src'.
  split; [exact Hrun|]. split; [apply length_seed_text | apply seed_text_alphabet].
Qed.

(** ** generateURL *)

Lemma all_chars_app (p : ascii -> bool) (s t : string) :
  all_chars p (s ++ t) = all_chars p s && all_chars p t.
Proof.
  induction s as [|c s IH]; cbn; [reflexivity|].
  rewrite IH, andb_assoc. reflexivity.
Qed.

Lemma prefix_append (s t : string) : prefix s (s ++ t) = true.
Proof.
  induction s as [|c s IH]; cbn; [destruct t; reflexivity|].
  destruct (ascii_dec c c) as [_|N]; [exact IH | congruence].
Qed.

Lemma base32_char_class (v : Z) : unreserved_or_pad (base32.char v) = true.
Proof.
  unfold base32.char, base32.BASE32_ENCODE_CHAR.
  generalize (Z.to_nat v). intros n.
  do 32 (destruct n as [|n]; [reflexivity|]). reflexivity.
Qed.

Lemma base32_encode_class (bs : list Z) :
  all_chars unreserved_or_pad (base32.encode_bytes bs) = true.
Proof.
  assert (H : forall n bs, (List.length bs <= n)%nat ->
                all_chars unreserved_or_pad (base32.encode_bytes bs) = true).
  { clear bs. induction n as [|n IH];
      intros [|v1 [|v2 [|v3 [|v4 [|v5 rest]]]]] Hl;
      cbn [List.length] in Hl; try lia;
      cbn [base32.encode_bytes all_chars]; rewrite ?base32_char_class;
      try reflexivity.
    cbn [andb]. apply IH. lia. }
  apply (H (List.length bs)). lia.
Qed.

Lemma remove_pad_unreserved (s : string) :
  all_chars unreserved_or_pad s = true ->
  all_chars unreserved (remove_all "=" s) = true.
Proof.
  induction s as [|c s IH]; cbn [all_chars remove_all]; [reflexivity|].
  intros H. apply andb_prop in H. destruct H as [Hc Hs].
  destruct (Ascii.eqb_spec c "=") as [->|Hne]; [apply IH; exact Hs|].
  cbn [all_chars]. rewrite (IH Hs), andb_true_r.
  unfold unreserved_or_pad in Hc. apply orb_prop in Hc.
  destruct Hc as [Hc|Hc]; [exact Hc|].
  apply Ascii.eqb_eq in Hc. congruence.
Qed.

Lemma remove_all_absent (c : ascii) (s : string) :
  all_chars (fun a => negb (a =? c)%char) (remove_all c s) = true.
Proof.
  induction s as [|a s IH]; cbn [remove_all]; [reflexivity|].
  destruct (Ascii.eqb a c) eqn:E; [exact IH|].
  cbn [all_chars]. rewrite E, IH. reflexivity.
Qed.

Lemma encodeURIComponent_unreserved (s : string) :
  all_chars unreserved s = true -> encodeURIComponent s = s.
Proof.
  induction s as [|c s IH]; cbn [all_chars encodeURIComponent]; [reflexivity|].
  intros H. apply andb_prop in H. destruct H as [Hc Hs].
  rewrite Hc, (IH Hs). reflexivity.
Qed.

(** C8 (amended). [generateURL] returns ['otpauth://totp/'], then
    ['?issuer='] and the percent-encoded issuer when an issuer is present
    and not empty, then the percent-encoded account when an account is
    present, and at the end ['&secret='] and the percent-encoded Base32 text
    of the seed without its ['='] padding, which percent-encoding leaves as
    it is. *)
Theorem generateURL_shape (seed : string) (options : option GenerateURLOptions.t) :
  let issuer := options ?. GenerateURLOptions.issuer in
  let account := options ?. GenerateURLOptions.account in
  let secret := remove_all "=" (base32.encode seed) in
  generateURL seed options = provisioning_uri seed (non_empty issuer) account
  /\ prefix "otpauth://totp/" (generateURL seed options) = true
  /\ all_chars (fun c => negb (c =? "=")%char) secret = true
  /\ encodeURIComponent secret = secret.
Proof.
  cbv zeta.
  assert (E : generateURL seed options
              = provisioning_uri seed
                  (non_empty (options ?. GenerateURLOptions.issuer))
                  (options ?. GenerateURLOptions.account)).
  { unfold generateURL, provisioning_uri, non_empty.
    destruct options as [[issuer account]|];
      cbn [field GenerateURLOptions.issuer GenerateURLOptions.account];
      [|reflexivity].
    destruct issuer as [[|c i]|]; destruct account as [[|c' a]|];
      cbn [truthy nullish]; rewrite ?append_assoc; reflexivity. }
  split; [exact E|]. split; [|split].
  - rewrite E. unfold provisioning_uri. apply prefix_append.
  - apply remove_all_absent.
  - apply encodeURIComponent_unreserved, remove_pad_unreserved, base32_encode_class.
Qed.

(** ** generateQRCode *)

Section Provisioning.

Variable toDataURL : renderer.

Lemma render_own_error (text : string) :
  render toDataURL text <> Throw MissingSeedOrURL.
Proof. unfold render. destruct (toDataURL text); discriminate. Qed.

(** The three ways of a call. *)
Lemma generateQRCode_cases (options : GenerateQRCodeOptions.t) :
  generateQRCode toDataURL options =
  match non_empty (GenerateQRCodeOptions.url options),
        non_empty (GenerateQRCodeOptions.seed options) with
  | Some url, _ => render toDataURL url
  | None, Some seed =>
      render toDataURL
        (generateURL seed
           (Some {| GenerateURLOptions.issuer := GenerateQRCodeOptions.issuer options;
                    GenerateURLOptions.account := GenerateQRCodeOptions.account options |}))
  | None, None => Throw MissingSeedOrURL
  end.
Proof.
  destruct options as [seed issuer account url].
  unfold generateQRCode, non_empty.
  cbn [GenerateQRCodeOptions.seed GenerateQRCodeOptions.url
         GenerateQRCodeOptions.issuer GenerateQRCodeOptions.account].
  destruct url as [[|c u]|]; destruct seed as [[|c' s]|]; reflexivity.
Qed.

(** C10 (amended). Given a seed and a url that is not empty,
    [generateQRCode] raises no error of its own: its outcome is the
    rendering of the url, whatever the seed, the issuer and the account. *)
Theorem generateQRCode_url_first (seed url : string) (issuer account : option string) :
  url <> "" ->
  let options :=
    {| GenerateQRCodeOptions.seed := Some seed;
       GenerateQRCodeOptions.issuer := issuer;
       GenerateQRCodeOptions.account := account;
       GenerateQRCodeOptions.url := Some url |} in
  generateQRCode toDataURL options = render toDataURL url
  /\ generateQRCode toDataURL options <> Throw MissingSeedOrURL
  /\ forall seed' issuer' account',
       generateQRCode toDataURL
         {| GenerateQRCodeOptions.seed := seed';
            GenerateQRCodeOptions.issuer := issuer';
            GenerateQRCodeOptions.account := account';
            GenerateQRCodeOptions.url := Some url |}
       = generateQRCode toDataURL options.
Proof.
  intros Hu options.
  assert (E : forall s i a,
             generateQRCode toDataURL
               {| GenerateQRCodeOptions.seed := s;
                  GenerateQRCodeOptions.issuer := i;
                  GenerateQRCodeOptions.account := a;
                  GenerateQRCodeOptions.url := Some url |}
             = render toDataURL url).
  { intros s i a. rewrite generateQRCode_cases.
    cbn [GenerateQRCodeOptions.url]. unfold non_empty.
    destruct url as [|c u]; [congruence | reflexivity]. }
  split; [apply E|]. split.
  - unfold options. rewrite E. apply render_own_error.
  - intros s i a. unfold options. rewrite !E. reflexivity.
Qed.

End Provisioning.

(** ** Errors *)

Section Errors.

Variable hmac : keyed_hash.
Hypothesis hmac_length : forall key msg, List.length (hmac key msg) = 20%nat.
Variable toDataURL : renderer.


End Errors.

(** * Concrete runs *)

(** The first test vector of RFC 4226, Appendix D. *)
Example rfc4226_test_vector :
  generateCode HMAC.hmac_sha1 rfc_seed 0 None = Return (Num 755224).
Proof. vm_compute. reflexivity. Qed.

Example rfc4226_test_vectors :
  map (fun c => generateCode HMAC.hmac_sha1 rfc_seed c None) [1; 2; 3; 4; 5; 6; 7; 8; 9]
  = map (fun v => Return (Num v))
      [287082; 359152; 969429; 338314; 254676; 287922; 162583; 399871; 520489].
Proof. vm_compute. reflexivity. Qed.

Example rfc4226_intermediate_hmac :
  to_hex (HMAC.hmac_sha1 (list_byte_of_string rfc_seed) (RFC4226.counter_bytes 1))
  = "75a48a19d4cbe100644e8ac1397eea747a2d33ab".
Proof. vm_compute. reflexivity. Qed.

Example base32_of_foobar : base32.encode "foobar" = "MZXW6YTBOI======".
Proof. reflexivity. Qed.

Lemma generateCode_rfc4226_witness :
  (forall key msg, List.length (HMAC.hmac_sha1 key msg) = 20%nat)
  /\ int64 7 /\ 1 <= 6
  /\ (let truncated :=
        RFC4226.truncated
          (HMAC.hmac_sha1 (list_byte_of_string rfc_seed) (RFC4226.counter_bytes 7)) in
      generateCode HMAC.hmac_sha1 rfc_seed 7
        (Some {| GenerateCodeOptions.length := Some 6 |})
      = Return (Num (RFC4226.code HMAC.hmac_sha1 rfc_seed 7 6))
      /\ RFC4226.code HMAC.hmac_sha1 rfc_seed 7 6 = truncated mod 10 ^ 6
      /\ digits_value (RFC4226.last_characters 6 (Number_toString truncated)) 0
         = truncated mod 10 ^ 6
      /\ 0 <= truncated < 2 ^ 31).
Proof.
  split; [exact hmac_sha1_length|].
  split; [unfold int64; lia|]. split; [lia|].
  apply (generateCode_rfc4226 HMAC.hmac_sha1 hmac_sha1_length rfc_seed 7 6);
    [unfold int64; lia | lia].
Defined.

Lemma generateCode_reads_in_bounds_witness :
  (forall key msg, List.length (HMAC.hmac_sha1 key msg) = 20%nat)
  /\ (forall missing,
        generateCode_reading missing HMAC.hmac_sha1 rfc_seed 0 None
        = generateCode HMAC.hmac_sha1 rfc_seed 0 None)
  /\ generateCode_reading (Throw TypeError) HMAC.hmac_sha1 rfc_seed 0 None
     = Return (Num 755224).
Proof.
  split; [exact hmac_sha1_length|].
  destruct (generateCode_reads_in_bounds HMAC.hmac_sha1 hmac_sha1_length rfc_seed 0 None)
    as (_ & Hinside & _).
  split; [exact Hinside|].
  rewrite Hinside. vm_compute. reflexivity.
Defined.

(** C2, as stated, fails for a negative length: the text of the code is
    cut to nothing, [parseInt] gives [NaN], and [NaN] equals no code. *)
Lemma fresh_code_counterexample :
  generateCode HMAC.hmac_sha1 rfc_seed 0
    (Some {| GenerateCodeOptions.length := Some (-10) |}) = Return NaN
  /\ verifyHOTP HMAC.hmac_sha1 rfc_seed NaN 0
       (Some {| VerifyHOTPOptions.length := Some (-10);
                VerifyHOTPOptions.allowedBeforeDrift := None;
                VerifyHOTPOptions.allowedAfterDrift := None |})
     = Return false.
Proof. vm_compute. split; reflexivity. Qed.

Lemma fresh_code_verifies_witness :
  (forall key msg, List.length (HMAC.hmac_sha1 key msg) = 20%nat)
  /\ 0 <= 7 < 2 ^ 63 /\ 0 <= Some 0 ?? 6
  /\ exists code,
       generateCode HMAC.hmac_sha1 rfc_seed 7
         (Some {| GenerateCodeOptions.length := Some 0 |}) = Return code
       /\ verifyHOTP HMAC.hmac_sha1 rfc_seed code 7
            (Some {| VerifyHOTPOptions.length := Some 0;
                     VerifyHOTPOptions.allowedBeforeDrift := None;
                     VerifyHOTPOptions.allowedAfterDrift := None |})
          = Return true.
Proof.
  split; [exact hmac_sha1_length|]. split; [lia|]. split; [cbn; lia|].
  apply (fresh_code_verifies HMAC.hmac_sha1 hmac_sha1_length rfc_seed 7 (Some 0));
    [lia | cbn; lia].
Defined.

(** C3, as stated, fails when codes coincide: with one digit, the code of
    counter 16 is also the code of counter 15, inside the window of 13. *)
Lemma drift_window_counterexample :
  generateCode HMAC.hmac_sha1 rfc_seed (13 + 3)
    (Some {| GenerateCodeOptions.length := Some 1 |}) = Return (Num 1)
  /\ verifyHOTP HMAC.hmac_sha1 rfc_seed (Num 1) 13
       (Some {| VerifyHOTPOptions.length := Some 1;
                VerifyHOTPOptions.allowedBeforeDrift := Some 0;
                VerifyHOTPOptions.allowedAfterDrift := Some 2 |})
     = Return true.
Proof. vm_compute. split; reflexivity. Qed.

Lemma drift_window_edge_witness :
  (forall key msg, List.length (HMAC.hmac_sha1 key msg) = 20%nat)
  /\ safe_integer 13 /\ safe_integer (13 + 3) /\ 0 <= Some 1 ?? 6
  /\ (let options :=
        Some {| VerifyHOTPOptions.length := Some 1;
                VerifyHOTPOptions.allowedBeforeDrift := Some 0;
                VerifyHOTPOptions.allowedAfterDrift := Some 2 |} in
      (exists code,
          generateCode HMAC.hmac_sha1 rfc_seed (13 + 2)
            (Some {| GenerateCodeOptions.length := Some 1 |}) = Return code
          /\ verifyHOTP HMAC.hmac_sha1 rfc_seed code 13 options = Return true)
      /\ (exists code b,
             generateCode HMAC.hmac_sha1 rfc_seed (13 + 3)
               (Some {| GenerateCodeOptions.length := Some 1 |}) = Return code
             /\ verifyHOTP HMAC.hmac_sha1 rfc_seed code 13 options = Return b
             /\ (b = false <->
                 forall i, 13 <= i <= 13 + 2 ->
                   generateCode HMAC.hmac_sha1 rfc_seed i
                     (Some {| GenerateCodeOptions.length := Some 1 |})
                   <> Return code))).
Proof.
  split; [exact hmac_sha1_length|].
  split; [unfold safe_integer; lia|]. split; [unfold safe_integer; lia|].
  split; [cbn; lia|].
  apply (drift_window_edge HMAC.hmac_sha1 hmac_sha1_length rfc_seed 13 (Some 1));
    [unfold safe_integer; lia | unfold safe_integer; lia | cbn; lia].
Defined.

(** C4, as stated, fails when a counter of the window cannot be encoded:
    with counter 0 and a drift before of [2^63 + 2048] the first counter
    tried is below [-2^63], [generateCode] throws [RangeError] there, and
    [verifyHOTP] throws although the counter 0 of the window has the code. *)
Lemma verifyHOTP_window_counterexample :
  let before := 2 ^ 63 + 2048 in
  let options :=
    Some {| VerifyHOTPOptions.length := None;
            VerifyHOTPOptions.allowedBeforeDrift := Some before;
            VerifyHOTPOptions.allowedAfterDrift := Some 0 |} in
  0 <= before
  /\ (exists i, 0 - before <= i <= 0 + 0
                /\ code_matches HMAC.hmac_sha1 rfc_seed (Num 755224) None i)
  /\ verifyHOTP HMAC.hmac_sha1 rfc_seed (Num 755224) 0 options = Throw RangeError.
Proof.
  cbv zeta. split; [lia|]. split.
  - exists 0. split; [lia|]. exists (Num 755224).
    split; vm_compute; reflexivity.
  - rewrite verifyHOTP_scan.
    cbn [field nullish VerifyHOTPOptions.length VerifyHOTPOptions.allowedBeforeDrift
           VerifyHOTPOptions.allowedAfterDrift]. cbv zeta.
    replace (Z.to_nat (2 ^ 63 + 2048 + 0 + 1))
      with (S (Z.to_nat (2 ^ 63 + 2048))) by lia.
    cbn [ascending scan].
    rewrite generateCode_out_of_range; [reflexivity|].
    unfold int64. lia.
Qed.

Lemma verifyHOTP_window_witness :
  (forall key msg, List.length (HMAC.hmac_sha1 key msg) = 20%nat)
  /\ 0 <= 1 /\ 0 <= 2 /\ safe_integer (5 - 1) /\ safe_integer (5 + 2)
  /\ (let options :=
        Some {| VerifyHOTPOptions.length := None;
                VerifyHOTPOptions.allowedBeforeDrift := Some 1;
                VerifyHOTPOptions.allowedAfterDrift := Some 2 |} in
      5 - 1 <= 5 + 2
      /\ verifyHOTP HMAC.hmac_sha1 rfc_seed (Num 287922) 5 options
         = scan HMAC.hmac_sha1 rfc_seed (Num 287922) None
             (ascending (5 - 1) (Z.to_nat (1 + 2 + 1)))
      /\ exists b,
           verifyHOTP HMAC.hmac_sha1 rfc_seed (Num 287922) 5 options = Return b
           /\ (b = true <->
               exists i, 5 - 1 <= i <= 5 + 2
                         /\ code_matches HMAC.hmac_sha1 rfc_seed (Num 287922) None i)).
Proof.
  split; [exact hmac_sha1_length|]. split; [lia|]. split; [lia|].
  split; [unfold safe_integer; lia|]. split; [unfold safe_integer; lia|].
  apply (verifyHOTP_window HMAC.hmac_sha1 hmac_sha1_length rfc_seed (Num 287922) 5
           None 1 2); unfold safe_integer; lia.
Defined.

Lemma verifyTOTP_delegates_witness :
  1 <= 30
  /\ (let current_unix_seconds : Q := (inject_Z 59000 / inject_Z 1000)%Q in
      let counter := Qfloor (current_unix_seconds / inject_Z 30) in
      verifyTOTP HMAC.hmac_sha1 59000 rfc_seed (Num 287082)
        (Some {| VerifyTOTPOptions.length := None; VerifyTOTPOptions.step := Some 30 |})
      = verifyHOTP HMAC.hmac_sha1 rfc_seed (Num 287082) counter
          (Some {| VerifyHOTPOptions.length := None;
                   VerifyHOTPOptions.allowedBeforeDrift := Some 0;
                   VerifyHOTPOptions.allowedAfterDrift := Some 0 |})
      /\ counter = 59000 / (1000 * 30)).
Proof.
  split; [lia|].
  apply (verifyTOTP_delegates HMAC.hmac_sha1 59000 rfc_seed (Num 287082) 30 None). lia.
Defined.

Lemma generateSeed_text_witness :
  1 <= 48
  /\ exists seed src',
       generateSeed (Some {| GenerateSeedOptions.length := Some 48 |}) sample_source
       = Return (seed, src')
       /\ Z.of_nat (length seed) = 48
       /\ (forall i, (i < Z.to_nat 48)%nat ->
             get i seed = Some (base36_char (Z_of_byte (sample_source i) mod 36)))
       /\ all_chars is_base36 seed = true
       /\ (forall n, src' n = sample_source (Z.to_nat 48 + n)%nat).
Proof.
  split; [lia|]. apply (generateSeed_text 48 sample_source). lia.
Defined.



(** C8, as stated, fails for an empty issuer: the issuer is present, and
    the URL has no issuer part. *)
Lemma generateURL_empty_issuer :
  let options :=
    Some {| GenerateURLOptions.issuer := Some ""; GenerateURLOptions.account := None |} in
  generateURL rfc_seed options = "otpauth://totp/&secret=GEZDGNBVGY3TQOJQGEZDGNBVGY3TQOJQ"
  /\ provisioning_uri rfc_seed (Some "") None
     = "otpauth://totp/?issuer=&secret=GEZDGNBVGY3TQOJQGEZDGNBVGY3TQOJQ"
  /\ generateURL rfc_seed options <> provisioning_uri rfc_seed (Some "") None.
Proof. vm_compute. repeat split. discriminate. Qed.

(** C10, as stated, fails for an empty url: both a seed and a url are
    given, and the URL of the seed is rendered, not the url. *)
Lemma generateQRCode_empty_url_with_seed :
  let options :=
    {| GenerateQRCodeOptions.seed := Some rfc_seed;
       GenerateQRCodeOptions.issuer := None;
       GenerateQRCodeOptions.account := None;
       GenerateQRCodeOptions.url := Some "" |} in
  generateQRCode sample_renderer options
  = render sample_renderer
      (generateURL rfc_seed
         (Some {| GenerateURLOptions.issuer := None; GenerateURLOptions.account := None |}))
  /\ generateQRCode sample_renderer options <> render sample_renderer "".
Proof. vm_compute. split; [reflexivity | discriminate]. Qed.

Lemma generateQRCode_url_first_witness :
  "otpauth://totp/x" <> ""
  /\ (let options :=
        {| GenerateQRCodeOptions.seed := Some rfc_seed;
           GenerateQRCodeOptions.issuer := Some "Issuer";
           GenerateQRCodeOptions.account := None;
           GenerateQRCodeOptions.url := Some "otpauth://totp/x" |} in
      generateQRCode sample_renderer options = render sample_renderer "otpauth://totp/x"
      /\ generateQRCode sample_renderer options <> Throw MissingSeedOrURL
      /\ forall seed' issuer' account',
           generateQRCode sample_renderer
             {| GenerateQRCodeOptions.seed := seed';
                GenerateQRCodeOptions.issuer := issuer';
                GenerateQRCodeOptions.account := account';
                GenerateQRCodeOptions.url := Some "otpauth://totp/x" |}
           = generateQRCode sample_renderer options).
Proof.
  split; [discriminate|].
  apply (generateQRCode_url_first sample_renderer rfc_seed "otpauth://totp/x"
           (Some "Issuer") None).
  discriminate.
Defined.

(** * Further properties *)

(** ** generateCode: the error, and the effect of the length *)

Lemma int64_dec (z : Z) : {int64 z} + {~ int64 z}.
Proof.
  unfold int64.
  destruct (Z_le_dec (- 2 ^ 63) z); destruct (Z_lt_dec z (2 ^ 63));
    [left | right | right | right]; lia.
Defined.

Lemma generateCode_cases (hmac : keyed_hash) (seed : string) (counter : Z)
  (options : option GenerateCodeOptions.t) :
  (int64 counter /\ exists n, generateCode hmac seed counter options = Return n)
  \/ (~ int64 counter /\ generateCode hmac seed counter options = Throw RangeError).
Proof.
  unfold generateCode. destruct (int64_dec counter) as [Hc|Hc].
  - left. split; [exact Hc|].
    rewrite (writeBigInt64BE_encodes _ Hc). cbn [bind]. eexists. reflexivity.
  - right. split; [exact Hc|].
    rewrite (writeBigInt64BE_refuses _ Hc). reflexivity.
Qed.

Lemma drop_all (n : nat) (s : string) : (length s <= n)%nat -> drop n s = "".
Proof.
  revert s. induction n as [|n IH]; intros [|c s] Hl; cbn in *;
    try reflexivity; try lia.
  apply IH. lia.
Qed.

Lemma decimal_length (fuel : nat) (n : Z) (k : nat) :
  0 <= n < 10 ^ Z.of_nat (S k) -> (length (decimal fuel n "") <= S k)%nat.
Proof.
  revert n k. induction fuel as [|fuel IH]; intros n k Hn; cbn [decimal].
  - cbn. lia.
  - destruct (Z.ltb_spec n 10) as [Hlt|Hge]; [cbn; lia|].
    rewrite decimal_acc, length_append. cbn [length].
    destruct k as [|k]; [cbn in Hn; lia|].
    assert (Hq : 0 <= n / 10 < 10 ^ Z.of_nat (S k)).
    { rewrite (Nat2Z.inj_succ (S k)), Z.pow_succ_r in Hn by lia.
      split; [apply Z.div_pos; lia | apply Z.div_lt_upper_bound; lia]. }
    pose proof (IH _ _ Hq). lia.
Qed.

(** The text of a number below [2^31] has at most ten characters. *)
Lemma Number_toString_31_bits (n : Z) :
  0 <= n < 2 ^ 31 -> (length (Number_toString n) <= 10)%nat.
Proof.
  intros Hn. unfold Number_toString. destruct (Z.ltb_spec n 0); [lia|].
  apply decimal_length. change (10 ^ Z.of_nat 10) with 10000000000. lia.
Qed.

Section Lengths.

Variable hmac : keyed_hash.
Hypothesis hmac_length : forall key msg, List.length (hmac key msg) = 20%nat.

Local Abbreviation truncated_of seed counter :=
  (RFC4226.truncated (hmac (list_byte_of_string seed) (RFC4226.counter_bytes counter))).

(** X2. With length 0 nothing is cut: [slice(-0)] keeps the whole text, and
    [generateCode] returns the full 31-bit truncated value. *)
Theorem generateCode_length_zero (seed : string) (counter : Z) :
  int64 counter ->
  generateCode hmac seed counter (Some {| GenerateCodeOptions.length := Some 0 |})
  = Return (Num (truncated_of seed counter)).
Proof.
  intros Hc. rewrite generateCode_text by assumption.
  cbn [field nullish GenerateCodeOptions.length]. cbv zeta.
  rewrite all_digits_kept; [reflexivity | apply truncated_31_bits, hmac_length].
Qed.

(** X3. For a length [L >= 1] the code is a number [v] with
    [0 <= v < 10^L], and [v < 2^31] whatever the length. *)
Theorem generateCode_range (seed : string) (counter L : Z) :
  int64 counter -> 1 <= L ->
  exists v,
    generateCode hmac seed counter (Some {| GenerateCodeOptions.length := Some L |})
    = Return (Num v)
    /\ 0 <= v < 10 ^ L /\ v < 2 ^ 31.
Proof.
  intros Hc HL. exists (truncated_of seed counter mod 10 ^ L).
  pose proof (truncated_31_bits hmac hmac_length seed counter) as Ht.
  assert (P : 0 < 10 ^ L) by (apply Z.pow_pos_nonneg; lia).
  split; [|split].
  - rewrite generateCode_text by assumption.
    cbn [field nullish GenerateCodeOptions.length]. cbv zeta.
    rewrite last_digits; [reflexivity | lia | exact HL].
  - apply Z.mod_pos_bound. exact P.
  - pose proof (Z.mod_le (truncated_of seed counter) (10 ^ L)). lia.
Qed.

(** X4. A length of ten or more changes nothing: the truncated value has at
    most ten digits, and the code is this value itself. *)
Theorem generateCode_long_length (seed : string) (counter L : Z) :
  int64 counter -> 10 <= L ->
  generateCode hmac seed counter (Some {| GenerateCodeOptions.length := Some L |})
  = Return (Num (truncated_of seed counter)).
Proof.
  intros Hc HL.
  pose proof (truncated_31_bits hmac hmac_length seed counter) as Ht.
  rewrite generateCode_text by assumption.
  cbn [field nullish GenerateCodeOptions.length]. cbv zeta.
  rewrite last_digits by lia. do 2 f_equal. apply Z.mod_small.
  assert (10 ^ 10 <= 10 ^ L) by (apply Z.pow_le_mono_r; lia).
  change (10 ^ 10) with 10000000000 in *. lia.
Qed.

(** X5. A shorter code is the end of a longer one: for [1 <= L <= L'] the
    code of length [L] is the code of length [L'] modulo [10^L]. *)
Theorem generateCode_shorter_is_suffix (seed : string) (counter L L' : Z) :
  int64 counter -> 1 <= L -> L <= L' ->
  exists v v',
    generateCode hmac seed counter (Some {| GenerateCodeOptions.length := Some L |})
    = Return (Num v)
    /\ generateCode hmac seed counter (Some {| GenerateCodeOptions.length := Some L' |})
       = Return (Num v')
    /\ v = v' mod 10 ^ L.
Proof.
  intros Hc HL HL'.
  pose proof (truncated_31_bits hmac hmac_length seed counter) as Ht.
  exists (truncated_of seed counter mod 10 ^ L),
         (truncated_of seed counter mod 10 ^ L').
  split; [|split].
  - rewrite generateCode_text by assumption.
    cbn [field nullish GenerateCodeOptions.length]. cbv zeta.
    rewrite last_digits; [reflexivity | lia | lia].
  - rewrite generateCode_text by assumption.
    cbn [field nullish GenerateCodeOptions.length]. cbv zeta.
    rewrite last_digits; [reflexivity | lia | lia].
  - replace L' with (L + (L' - L)) by lia.
    rewrite Z.pow_add_r by lia.
    assert (0 < 10 ^ L) by (apply Z.pow_pos_nonneg; lia).
    assert (0 < 10 ^ (L' - L)) by (apply Z.pow_pos_nonneg; lia).
    set (a := 10 ^ L) in *. set (b := 10 ^ (L' - L)) in *.
    rewrite Z.rem_mul_r by lia.
    rewrite (Z.mul_comm a (_ mod b)), Z.mod_add by lia.
    rewrite Z.mod_mod by lia. reflexivity.
Qed.

(** X6. A length of -10 or less leaves no character of the text, and
    [generateCode] returns [NaN]. *)
Theorem generateCode_negative_length (seed : string) (counter L : Z) :
  int64 counter -> L <= -10 ->
  generateCode hmac seed counter (Some {| GenerateCodeOptions.length := Some L |})
  = Return NaN.
Proof.
  intros Hc HL.
  pose proof (truncated_31_bits hmac hmac_length seed counter) as Ht.
  rewrite generateCode_text by assumption.
  cbn [field nullish GenerateCodeOptions.length]. cbv zeta.
  pose proof (Number_toString_31_bits _ Ht) as Hlen.
  set (text := Number_toString _) in *.
  unfold slice. destruct (Z.ltb_spec (- L) 0); [lia|].
  rewrite drop_all by lia.
  unfold padStart. cbn [length].
  destruct (Z.leb_spec L (Z.of_nat 0)); [|cbn in *; lia].
  reflexivity.
Qed.

End Lengths.

(** ** The hexadecimal round trip of generateCode *)

Lemma length_to_hex (buf : list byte) :
  length (to_hex buf) = (2 * List.length buf)%nat.
Proof. induction buf as [|b rest IH]; cbn [to_hex length List.length]; lia. Qed.

(** X7. The text that [digest('hex')] gives has two characters for each
    byte, and [Buffer.from(_, 'hex')] reads it back to the same bytes:
    [tokenBuf] is the digest. *)
Theorem hex_round_trip (hmac : keyed_hash) (seed : string) (counterBuf : list byte) :
  let digest := hmac (list_byte_of_string seed) counterBuf in
  let token := to_hex digest in
  from_hex token = digest
  /\ length token = (2 * List.length digest)%nat.
Proof. cbv zeta. split; [apply from_hex_to_hex | apply length_to_hex]. Qed.

(** ** verifyHOTP: windows *)

Lemma scan_NaN (hmac : keyed_hash) (seed : string) (len : option Z)
  (counters : list Z) :
  (forall j, In j counters -> int64 j) ->
  scan hmac seed NaN len counters = Return false.
Proof.
  induction counters as [|i rest IH]; intros Hr; [reflexivity|].
  cbn [scan].
  destruct (generateCode_cases hmac seed i
              (Some {| GenerateCodeOptions.length := len |}))
    as [[_ [n Hn]]|[Hc _]].
  - rewrite Hn. cbn [bind].
    replace (strict_equal n NaN) with false by (destruct n; reflexivity).
    apply IH. intros j Hj. apply Hr. right. exact Hj.
  - destruct Hc. apply Hr. left. reflexivity.
Qed.

(** X8. [NaN] verifies at no counter: for a window of safe integers
    [verifyHOTP] returns [false] for the code [NaN], whatever the seed,
    the length and the drifts. *)
Theorem verifyHOTP_NaN (hmac : keyed_hash) (seed : string) (counter : Z)
  (len before after : option Z) :
  safe_integer (counter - before ?? 0) -> safe_integer (counter + after ?? 0) ->
  verifyHOTP hmac seed NaN counter
    (Some {| VerifyHOTPOptions.length := len;
             VerifyHOTPOptions.allowedBeforeDrift := before;
             VerifyHOTPOptions.allowedAfterDrift := after |})
  = Return false.
Proof.
  intros Hlo Hhi. rewrite verifyHOTP_scan.
  cbn [field VerifyHOTPOptions.length VerifyHOTPOptions.allowedBeforeDrift
         VerifyHOTPOptions.allowedAfterDrift]. cbv zeta.
  apply scan_NaN. intros j Hj. apply In_ascending in Hj.
  unfold safe_integer, int64 in *. lia.
Qed.

(** X9. When the drifts make the bounds cross, the window is empty:
    [verifyHOTP] returns [false] for every code, without a call of
    [generateCode]. *)
Theorem verifyHOTP_crossed_window (hmac : keyed_hash) (seed : string) (code : number)
  (counter : Z) (len : option Z) (before after : Z) :
  before + after < 0 ->
  safe_integer (counter - before) -> safe_integer (counter + after) ->
  verifyHOTP hmac seed code counter
    (Some {| VerifyHOTPOptions.length := len;
             VerifyHOTPOptions.allowedBeforeDrift := Some before;
             VerifyHOTPOptions.allowedAfterDrift := Some after |})
  = Return false.
Proof.
  intros Hcross _ _. rewrite verifyHOTP_scan.
  cbn [field nullish VerifyHOTPOptions.length VerifyHOTPOptions.allowedBeforeDrift
         VerifyHOTPOptions.allowedAfterDrift]. cbv zeta.
  replace (Z.to_nat (before + after + 1)) with O by lia. reflexivity.
Qed.

(** X10. With the default window, a counter outside the signed 64-bit range
    is an error, not a refusal: [verifyHOTP] throws [RangeError] for every
    code. *)
Theorem verifyHOTP_unencodable_counter (hmac : keyed_hash) (seed : string)
  (code : number) (counter : Z) (len : option Z) :
  ~ int64 counter ->
  verifyHOTP hmac seed code counter None = Throw RangeError
  /\ verifyHOTP hmac seed code counter
       (Some {| VerifyHOTPOptions.length := len;
                VerifyHOTPOptions.allowedBeforeDrift := None;
                VerifyHOTPOptions.allowedAfterDrift := None |})
     = Throw RangeError.
Proof.
  intros Hc. split; rewrite verifyHOTP_scan;
    cbn [field nullish VerifyHOTPOptions.length VerifyHOTPOptions.allowedBeforeDrift
           VerifyHOTPOptions.allowedAfterDrift]; cbv zeta;
    change (Z.to_nat (0 + 0 + 1)) with 1%nat; cbn [ascending scan];
    replace (counter - 0) with counter by lia;
    destruct (generateCode_cases hmac seed counter
                (Some {| GenerateCodeOptions.length := None |})) as [[H _]|[_ H1]];
    destruct (generateCode_cases hmac seed counter
                (Some {| GenerateCodeOptions.length := len |})) as [[H' _]|[_ H2]];
    try contradiction; cbn [field]; rewrite ?H1, ?H2; reflexivity.
Qed.

Section Windows.

Variable hmac : keyed_hash.
Hypothesis hmac_length : forall key msg, List.length (hmac key msg) = 20%nat.

(** X11. Every counter of the window is accepted: for non-negative drifts,
    a window of safe integers and a length [L >= 0], the code that
    [generateCode] returns at a counter [j] of the window verifies. *)
Theorem verifyHOTP_accepts_window (seed : string) (counter j : Z) (len : option Z)
  (before after : Z) :
  0 <= before -> 0 <= after ->
  safe_integer (counter - before) -> safe_integer (counter + after) ->
  0 <= len ?? 6 ->
  counter - before <= j <= counter + after ->
  exists code,
    generateCode hmac seed j (Some {| GenerateCodeOptions.length := len |})
    = Return code
    /\ verifyHOTP hmac seed code counter
         (Some {| VerifyHOTPOptions.length := len;
                  VerifyHOTPOptions.allowedBeforeDrift := Some before;
                  VerifyHOTPOptions.allowedAfterDrift := Some after |})
       = Return true.
Proof.
  intros Hb Ha Hlo Hhi HL Hj. unfold safe_integer in Hlo, Hhi.
  destruct (generateCode_number hmac hmac_length seed j len) as [v Hv];
    [unfold int64; lia | exact HL |].
  exists (Num v). split; [exact Hv|].
  destruct (verifyHOTP_decides hmac hmac_length seed (Num v) counter len
              (Some before) (Some after)) as (b & Hrun & Hiff);
    cbn [nullish]; try assumption; try (unfold int64; lia).
  rewrite Hrun. f_equal. apply Hiff. exists j. cbn [nullish].
  split; [exact Hj|]. exists (Num v).
  split; [exact Hv | apply strict_equal_Num; reflexivity].
Qed.

(** X12. A wider window accepts what a narrower one accepts: when
    [verifyHOTP] returns [true] with drifts [(before, after)], it returns
    [true] with every larger drifts [(before', after')]. *)
Theorem verifyHOTP_wider_window (seed : string) (code : number) (counter : Z)
  (len : option Z) (before after before' after' : Z) :
  0 <= before <= before' -> 0 <= after <= after' ->
  safe_integer (counter - before') -> safe_integer (counter + after') ->
  verifyHOTP hmac seed code counter
    (Some {| VerifyHOTPOptions.length := len;
             VerifyHOTPOptions.allowedBeforeDrift := Some before;
             VerifyHOTPOptions.allowedAfterDrift := Some after |})
  = Return true ->
  verifyHOTP hmac seed code counter
    (Some {| VerifyHOTPOptions.length := len;
             VerifyHOTPOptions.allowedBeforeDrift := Some before';
             VerifyHOTPOptions.allowedAfterDrift := Some after' |})
  = Return true.
Proof.
  intros Hb Ha Hlo Hhi Hnarrow. unfold safe_integer in Hlo, Hhi.
  destruct (verifyHOTP_decides hmac hmac_length seed code counter len
              (Some before) (Some after)) as (b & Hrun & Hiff);
    cbn [nullish]; try (unfold int64; lia).
  destruct (verifyHOTP_decides hmac hmac_length seed code counter len
              (Some before') (Some after')) as (b' & Hrun' & Hiff');
    cbn [nullish]; try (unfold int64; lia).
  rewrite Hrun in Hnarrow. injection Hnarrow as Hbt.
  rewrite Hrun'. f_equal. apply Hiff'.
  destruct (proj1 Hiff Hbt) as (i & Hi & Hm). cbn [nullish] in *.
  exists i. split; [lia | exact Hm].
Qed.

(** X13. The code of the current time step is accepted: for a step
    [s >= 1], a clock [0 <= now < 2^53] and a length [L >= 0], the code that
    [generateCode] returns at the counter [now / (1000 * s)] verifies with
    [verifyTOTP]. *)
Theorem verifyTOTP_accepts_current (now : Z) (seed : string) (s : Z) (len : option Z) :
  1 <= s -> 0 <= now < 2 ^ 53 -> 0 <= len ?? 6 ->
  exists code,
    generateCode hmac seed (now / (1000 * s))
      (Some {| GenerateCodeOptions.length := len |}) = Return code
    /\ verifyTOTP hmac now seed code
         (Some {| VerifyTOTPOptions.length := len; VerifyTOTPOptions.step := Some s |})
       = Return true.
Proof.
  intros Hs Hnow HL.
  assert (Hq : 0 <= now / (1000 * s) <= now).
  { split; [apply Z.div_pos; lia|]. apply Z.div_le_upper_bound; nia. }
  destruct (generateCode_number hmac hmac_length seed (now / (1000 * s)) len)
    as [v Hv]; [unfold int64; lia | exact HL |].
  exists (Num v). split; [exact Hv|].
  unfold verifyTOTP.
  cbn [field nullish VerifyTOTPOptions.length VerifyTOTPOptions.step].
  destruct (Z.eqb_spec s 0) as [->|_]; [lia|].
  rewrite totp_counter by lia.
  destruct (verifyHOTP_decides hmac hmac_length seed (Num v) (now / (1000 * s)) len
              None None) as (b & Hrun & Hiff);
    cbn [nullish]; try lia; try (unfold int64; lia).
  rewrite Hrun. f_equal. apply Hiff. exists (now / (1000 * s)). cbn [nullish].
  split; [lia|]. exists (Num v).
  split; [exact Hv | apply strict_equal_Num; reflexivity].
Qed.

End Windows.

(** X14. The answer of [verifyTOTP] is the same during a whole time step:
    two clock values of the same interval of [1000 * s] milliseconds give
    the same outcome. *)
Theorem verifyTOTP_same_step (hmac : keyed_hash) (now now' k : Z) (seed : string)
  (code : number) (s : Z) (len : option Z) :
  1 <= s ->
  k * (1000 * s) <= now < (k + 1) * (1000 * s) ->
  k * (1000 * s) <= now' < (k + 1) * (1000 * s) ->
  verifyTOTP hmac now seed code
    (Some {| VerifyTOTPOptions.length := len; VerifyTOTPOptions.step := Some s |})
  = verifyTOTP hmac now' seed code
      (Some {| VerifyTOTPOptions.length := len; VerifyTOTPOptions.step := Some s |}).
Proof.
  intros Hs Hnow Hnow'. unfold verifyTOTP.
  cbn [field nullish VerifyTOTPOptions.length VerifyTOTPOptions.step].
  destruct (Z.eqb_spec s 0) as [->|_]; [lia|].
  rewrite !totp_counter by lia.
  assert (E : forall t, k * (1000 * s) <= t < (k + 1) * (1000 * s) ->
                        t / (1000 * s) = k).
  { intros t Ht. symmetry.
    apply Z.div_unique with (r := t - k * (1000 * s)); [left; lia | ring]. }
  rewrite (E now Hnow), (E now' Hnow'). reflexivity.
Qed.

(** ** generateSeed: lengths, calls in a row, and the share of each digit *)

(** X15. For a length of zero or less [generateSeed] returns the empty
    seed and draws no byte. *)
Theorem generateSeed_no_character (L : Z) (src : random_source) :
  L <= 0 ->
  generateSeed (Some {| GenerateSeedOptions.length := Some L |}) src
  = Return ("", src).
Proof.
  intros HL. unfold generateSeed.
  cbn [field nullish GenerateSeedOptions.length seed_loop length].
  destruct (Z.ltb_spec (Z.of_nat 0) L); [cbn in *; lia | reflexivity].
Qed.

Lemma generateSeed_run (L : Z) (src : random_source) :
  exists src',
    generateSeed (Some {| GenerateSeedOptions.length := Some L |}) src
    = Return (seed_text (Z.to_nat L) src, src')
    /\ forall n, src' n = src (Z.to_nat L + n)%nat.
Proof.
  destruct (Z_le_dec L 0) as [Hle|Hgt].
  - exists src. replace (Z.to_nat L) with O by lia. split; [|reflexivity].
    unfold generateSeed.
    cbn [field nullish GenerateSeedOptions.length seed_loop length seed_text].
    destruct (Z.ltb_spec (Z.of_nat 0) L); [cbn in *; lia | reflexivity].
  - unfold generateSeed. cbn [field nullish GenerateSeedOptions.length].
    destruct (seed_loop_spec (S (Z.to_nat L)) L "" src (Z.to_nat L - 1))
      as (src' & Hrun & Hsrc); [cbn [length]; lia | lia |].
    replace (S (Z.to_nat L - 1)) with (Z.to_nat L) in * by lia.
    exists src'. split; [exact Hrun | exact Hsrc].
Qed.

Lemma seed_text_ext (n : nat) (src src' : random_source) :
  (forall k, src k = src' k) -> seed_text n src = seed_text n src'.
Proof.
  revert src src'. induction n as [|n IH]; intros src src' H; cbn [seed_text];
    [reflexivity|].
  rewrite (H O). f_equal. apply IH. intros k. apply H.
Qed.

Lemma seed_text_app (a b : nat) (src : random_source) :
  seed_text (a + b) src = seed_text a src ++ seed_text b (fun n => src (a + n)%nat).
Proof.
  revert src. induction a as [|a IH]; intros src; cbn [seed_text Nat.add append].
  - apply seed_text_ext. reflexivity.
  - f_equal. rewrite IH. reflexivity.
Qed.

(** X16. Two calls in a row give what one call gives: the seed of length
    [L1] followed by the seed of length [L2], made from the bytes that the
    first call has left, is the seed of length [L1 + L2], and the same bytes
    are left. *)
Theorem generateSeed_two_calls (L1 L2 : Z) (src : random_source) :
  0 <= L1 -> 0 <= L2 ->
  exists seed1 src1 seed2 src2 src',
    generateSeed (Some {| GenerateSeedOptions.length := Some L1 |}) src
    = Return (seed1, src1)
    /\ generateSeed (Some {| GenerateSeedOptions.length := Some L2 |}) src1
       = Return (seed2, src2)
    /\ generateSeed (Some {| GenerateSeedOptions.length := Some (L1 + L2) |}) src
       = Return (seed1 ++ seed2, src')
    /\ forall n, src' n = src2 n.
Proof.
  intros H1 H2.
  destruct (generateSeed_run L1 src) as (src1 & R1 & S1).
  destruct (generateSeed_run L2 src1) as (src2 & R2 & S2).
  destruct (generateSeed_run (L1 + L2) src) as (src' & R & S').
  exists (seed_text (Z.to_nat L1) src), src1, (seed_text (Z.to_nat L2) src1), src2, src'.
  split; [exact R1|]. split; [exact R2|]. split.
  - rewrite R. do 2 f_equal.
    rewrite Z2Nat.inj_add, seed_text_app by lia. f_equal.
    apply seed_text_ext. intros k. symmetry. apply S1.
  - intros n. rewrite S', S2, S1. f_equal. lia.
Qed.

Lemma all_bytes_complete (b : byte) : In b all_bytes.
Proof.
  unfold all_bytes. apply in_map_iff.
  pose proof (Z_of_byte_range b) as Hb.
  exists (Z.to_nat (Z_of_byte b)). split.
  - rewrite Z2Nat.id by lia. apply byte_of_Z_of_byte.
  - apply in_seq. lia.
Qed.

(** X17. The digits are not drawn evenly: of the 256 bytes, eight give each
    of the characters ['0'] to ['3'] and seven give each of the thirty-two
    others, since [256 = 7 * 36 + 4]. *)
Theorem generateSeed_modulo_bias (v : Z) :
  0 <= v < 36 ->
  List.length (bytes_giving (base36_char v)) = (if v <? 4 then 8%nat else 7%nat)
  /\ List.length all_bytes = 256%nat
  /\ forall b, In b all_bytes.
Proof.
  intros Hv. split; [|split; [reflexivity | exact all_bytes_complete]].
  rewrite <- (Z2Nat.id v) by lia.
  assert (Hn : (Z.to_nat v < 36)%nat) by lia.
  revert Hn. generalize (Z.to_nat v). intros n Hn.
  do 36 (destruct n as [|n]; [vm_compute; reflexivity|]). lia.
Qed.

(** ** generateURL: separators *)

Lemma generateURL_unfold (seed : string) (options : option GenerateURLOptions.t) :
  generateURL seed options
  = provisioning_uri seed
      (non_empty (options ?. GenerateURLOptions.issuer))
      (options ?. GenerateURLOptions.account).
Proof.
  unfold generateURL, provisioning_uri, non_empty.
  destruct options as [[issuer account]|];
    cbn [field GenerateURLOptions.issuer GenerateURLOptions.account];
    [|reflexivity].
  destruct issuer as [[|c i]|]; destruct account as [[|c' a]|];
    cbn [truthy nullish]; rewrite ?append_assoc; reflexivity.
Qed.

Lemma count_char_app (c : ascii) (s t : string) :
  count_char c (s ++ t) = (count_char c s + count_char c t)%nat.
Proof.
  induction s as [|a s IH]; cbn [append count_char]; [reflexivity|].
  rewrite IH. lia.
Qed.

Lemma upper_hex_digit_unreserved (d : Z) :
  0 <= d < 16 -> unreserved (upper_hex_digit d) = true.
Proof.
  intros Hd. below_16 d H.
  repeat (destruct H as [-> | H]; [reflexivity |]). subst d. reflexivity.
Qed.

Lemma ascii_code_range (c : ascii) : 0 <= Z.of_N (N_of_ascii c) < 256.
Proof.
  pose proof (N_ascii_bounded c) as H. apply N2Z.inj_lt in H.
  change (Z.of_N 256) with 256 in H.
  pose proof (N2Z.is_nonneg (N_of_ascii c)). lia.
Qed.

(** Percent-encoding gives unreserved characters and ['%'] only. *)
Lemma count_char_encoded (c : ascii) (s : string) :
  unreserved c = false -> c <> "%"%char ->
  count_char c (encodeURIComponent s) = O.
Proof.
  intros Hc Hp.
  assert (Hne : forall a, unreserved a = true -> (a =? c)%char = false).
  { intros a Ha. apply Ascii.eqb_neq. intros ->. congruence. }
  induction s as [|a s IH]; cbn [encodeURIComponent]; [reflexivity|].
  destruct (unreserved a) eqn:Ha; cbn [count_char].
  - rewrite (Hne a Ha), IH. reflexivity.
  - pose proof (ascii_code_range a) as Hr.
    assert (Hhi : unreserved (upper_hex_digit (Z.of_N (N_of_ascii a) / 16)) = true).
    { apply upper_hex_digit_unreserved.
      split; [apply Z.div_pos; lia | apply Z.div_lt_upper_bound; lia]. }
    assert (Hlo : unreserved (upper_hex_digit (Z.of_N (N_of_ascii a) mod 16)) = true)
      by (apply upper_hex_digit_unreserved, Z.mod_pos_bound; lia).
    rewrite (Hne _ Hhi), (Hne _ Hlo), IH.
    replace ("%" =? c)%char with false; [reflexivity|].
    symmetry. apply Ascii.eqb_neq. congruence.
Qed.

(** X18. The issuer and the account can add no parameter: whatever they
    hold, the URL has exactly one ['&'], the one of ['&secret='], and its
    ['='] are those of ['?issuer='] and ['&secret=']. *)
Theorem generateURL_separators (seed : string) (options : option GenerateURLOptions.t) :
  count_char "&" (generateURL seed options) = 1%nat
  /\ count_char "=" (generateURL seed options)
     = (if truthy (options ?. GenerateURLOptions.issuer) then 2 else 1)%nat.
Proof.
  rewrite generateURL_unfold. unfold provisioning_uri, non_empty.
  set (secret := encodeURIComponent (remove_all "=" (base32.encode seed))).
  assert (A : forall t, count_char "&" (encodeURIComponent t) = O)
    by (intros t; apply count_char_encoded; [reflexivity | discriminate]).
  assert (E : forall t, count_char "=" (encodeURIComponent t) = O)
    by (intros t; apply count_char_encoded; [reflexivity | discriminate]).
  assert (As : count_char "&" secret = O) by apply A.
  assert (Es : count_char "=" secret = O) by apply E.
  split.
  - destruct (options ?. GenerateURLOptions.issuer) as [[|c i]|];
      destruct (options ?. GenerateURLOptions.account) as [a|]; cbn [truthy];
      rewrite ?count_char_app, ?A, ?As; reflexivity.
  - destruct (options ?. GenerateURLOptions.issuer) as [[|c i]|];
      destruct (options ?. GenerateURLOptions.account) as [a|]; cbn [truthy];
      rewrite ?count_char_app, ?E, ?Es; reflexivity.
Qed.

(** X19. The URL has a ['?'] only for an issuer that is not empty: without
    one, ['&secret='] comes right after the path and the account, with no
    ['?'] before it. *)
Theorem generateURL_question_mark (seed : string) (options : option GenerateURLOptions.t) :
  count_char "?" (generateURL seed options)
  = (if truthy (options ?. GenerateURLOptions.issuer) then 1 else 0)%nat.
Proof.
  rewrite generateURL_unfold. unfold provisioning_uri, non_empty.
  set (secret := encodeURIComponent (remove_all "=" (base32.encode seed))).
  assert (Q : forall t, count_char "?" (encodeURIComponent t) = O)
    by (intros t; apply count_char_encoded; [reflexivity | discriminate]).
  assert (Qs : count_char "?" secret = O) by apply Q.
  destruct (options ?. GenerateURLOptions.issuer) as [[|c i]|];
    destruct (options ?. GenerateURLOptions.account) as [a|]; cbn [truthy];
    rewrite ?count_char_app, ?Q, ?Qs; reflexivity.
Qed.

Lemma encodeURIComponent_app (s t : string) :
  encodeURIComponent (s ++ t) = encodeURIComponent s ++ encodeURIComponent t.
Proof.
  induction s as [|c s IH]; cbn [append encodeURIComponent]; [reflexivity|].
  rewrite IH. destruct (unreserved c); reflexivity.
Qed.

(** X20. The account follows the issuer with nothing between them: moving
    characters from the end of the issuer to the start of the account
    leaves the URL as it is. *)
Theorem generateURL_account_joins_issuer (seed issuer moved account : string) :
  issuer <> "" ->
  generateURL seed
    (Some {| GenerateURLOptions.issuer := Some (issuer ++ moved);
             GenerateURLOptions.account := Some account |})
  = generateURL seed
      (Some {| GenerateURLOptions.issuer := Some issuer;
               GenerateURLOptions.account := Some (moved ++ account) |}).
Proof.
  intros Hi. rewrite !generateURL_unfold.
  cbn [field GenerateURLOptions.issuer GenerateURLOptions.account].
  destruct issuer as [|c i]; [congruence|].
  unfold provisioning_uri, non_empty. cbn [append truthy encodeURIComponent].
  rewrite (encodeURIComponent_app i moved), (encodeURIComponent_app moved account).
  destruct (unreserved c); cbn [append]; rewrite !append_assoc; reflexivity.
Qed.

(** ** generateQRCode: what is rendered *)

Section Rendering.

Variable toDataURL : renderer.

(** X21. [generateQRCode] either raises its own error or hands a text that
    is not empty to the renderer, and its outcome is the renderer's: the
    seed is there whenever [options.seed!] is read. *)
Theorem generateQRCode_outcomes (options : GenerateQRCodeOptions.t) :
  generateQRCode toDataURL options = Throw MissingSeedOrURL
  \/ exists text,
       (0 < length text)%nat
       /\ generateQRCode toDataURL options = render toDataURL text.
Proof.
  rewrite generateQRCode_cases.
  destruct options as [seed issuer account url].
  cbn [GenerateQRCodeOptions.seed GenerateQRCodeOptions.url
         GenerateQRCodeOptions.issuer GenerateQRCodeOptions.account].
  destruct url as [[|c u]|]; destruct seed as [[|c' s]|]; cbn [non_empty truthy];
    try (left; reflexivity); right.
  all: try (exists (String c u); split; [cbn; lia | reflexivity]).
  all: eexists; (split; [|reflexivity]);
    rewrite generateURL_unfold; unfold provisioning_uri; cbn; lia.
Qed.

(** X22. A seed and the URL made from it are two ways to the same image:
    for a seed that is not empty and no url, [generateQRCode] gives what it
    gives for the url [generateURL(seed, {issuer, account})] alone. *)
Theorem generateQRCode_seed_or_its_url (seed : string) (issuer account : option string) :
  seed <> "" ->
  generateQRCode toDataURL
    {| GenerateQRCodeOptions.seed := Some seed;
       GenerateQRCodeOptions.issuer := issuer;
       GenerateQRCodeOptions.account := account;
       GenerateQRCodeOptions.url := None |}
  = generateQRCode toDataURL
      {| GenerateQRCodeOptions.seed := None;
         GenerateQRCodeOptions.issuer := None;
         GenerateQRCodeOptions.account := None;
         GenerateQRCodeOptions.url :=
           Some (generateURL seed
                   (Some {| GenerateURLOptions.issuer := issuer;
                            GenerateURLOptions.account := account |})) |}.
Proof.
  intros Hs. rewrite !generateQRCode_cases.
  cbn [GenerateQRCodeOptions.seed GenerateQRCodeOptions.url
         GenerateQRCodeOptions.issuer GenerateQRCodeOptions.account].
  destruct seed as [|c s]; [congruence|].
  cbn [non_empty truthy].
  rewrite generateURL_unfold. unfold provisioning_uri. reflexivity.
Qed.

End Rendering.

(** ** Concrete runs of the further properties *)

Lemma generateCode_length_zero_witness :
  (forall key msg, List.length (HMAC.hmac_sha1 key msg) = 20%nat)
  /\ int64 0
  /\ generateCode HMAC.hmac_sha1 rfc_seed 0
       (Some {| GenerateCodeOptions.length := Some 0 |})
     = Return (Num (RFC4226.truncated
                      (HMAC.hmac_sha1 (list_byte_of_string rfc_seed)
                         (RFC4226.counter_bytes 0)))).
Proof.
  split; [exact hmac_sha1_length|]. split; [unfold int64; lia|].
  apply (generateCode_length_zero HMAC.hmac_sha1 hmac_sha1_length rfc_seed 0).
  unfold int64. lia.
Defined.

Lemma generateCode_range_witness :
  (forall key msg, List.length (HMAC.hmac_sha1 key msg) = 20%nat)
  /\ int64 3 /\ 1 <= 6
  /\ exists v,
       generateCode HMAC.hmac_sha1 rfc_seed 3
         (Some {| GenerateCodeOptions.length := Some 6 |}) = Return (Num v)
       /\ 0 <= v < 10 ^ 6 /\ v < 2 ^ 31.
Proof.
  split; [exact hmac_sha1_length|]. split; [unfold int64; lia|]. split; [lia|].
  apply (generateCode_range HMAC.hmac_sha1 hmac_sha1_length rfc_seed 3 6);
    [unfold int64; lia | lia].
Defined.

Lemma generateCode_long_length_witness :
  (forall key msg, List.length (HMAC.hmac_sha1 key msg) = 20%nat)
  /\ int64 0 /\ 10 <= 12
  /\ generateCode HMAC.hmac_sha1 rfc_seed 0
       (Some {| GenerateCodeOptions.length := Some 12 |})
     = Return (Num (RFC4226.truncated
                      (HMAC.hmac_sha1 (list_byte_of_string rfc_seed)
                         (RFC4226.counter_bytes 0)))).
Proof.
  split; [exact hmac_sha1_length|]. split; [unfold int64; lia|]. split; [lia|].
  apply (generateCode_long_length HMAC.hmac_sha1 hmac_sha1_length rfc_seed 0 12);
    [unfold int64; lia | lia].
Defined.

Lemma generateCode_shorter_is_suffix_witness :
  (forall key msg, List.length (HMAC.hmac_sha1 key msg) = 20%nat)
  /\ int64 0 /\ 1 <= 6 /\ 6 <= 8
  /\ exists v v',
       generateCode HMAC.hmac_sha1 rfc_seed 0
         (Some {| GenerateCodeOptions.length := Some 6 |}) = Return (Num v)
       /\ generateCode HMAC.hmac_sha1 rfc_seed 0
            (Some {| GenerateCodeOptions.length := Some 8 |}) = Return (Num v')
       /\ v = v' mod 10 ^ 6.
Proof.
  split; [exact hmac_sha1_length|]. split; [unfold int64; lia|].
  split; [lia|]. split; [lia|].
  apply (generateCode_shorter_is_suffix HMAC.hmac_sha1 hmac_sha1_length rfc_seed 0 6 8);
    [unfold int64; lia | lia | lia].
Defined.

Lemma generateCode_negative_length_witness :
  (forall key msg, List.length (HMAC.hmac_sha1 key msg) = 20%nat)
  /\ int64 0 /\ -12 <= -10
  /\ generateCode HMAC.hmac_sha1 rfc_seed 0
       (Some {| GenerateCodeOptions.length := Some (-12) |}) = Return NaN.
Proof.
  split; [exact hmac_sha1_length|]. split; [unfold int64; lia|]. split; [lia|].
  apply (generateCode_negative_length HMAC.hmac_sha1 hmac_sha1_length rfc_seed 0 (-12));
    [unfold int64; lia | lia].
Defined.

Lemma verifyHOTP_NaN_witness :
  safe_integer (5 - Some 1 ?? 0) /\ safe_integer (5 + Some 2 ?? 0)
  /\ verifyHOTP HMAC.hmac_sha1 rfc_seed NaN 5
       (Some {| VerifyHOTPOptions.length := None;
                VerifyHOTPOptions.allowedBeforeDrift := Some 1;
                VerifyHOTPOptions.allowedAfterDrift := Some 2 |})
     = Return false.
Proof.
  split; [cbn; unfold safe_integer; lia|]. split; [cbn; unfold safe_integer; lia|].
  apply (verifyHOTP_NaN HMAC.hmac_sha1 rfc_seed 5 None (Some 1) (Some 2));
    cbn; unfold safe_integer; lia.
Defined.

Lemma verifyHOTP_crossed_window_witness :
  -2 + 1 < 0 /\ safe_integer (5 - -2) /\ safe_integer (5 + 1)
  /\ verifyHOTP HMAC.hmac_sha1 rfc_seed (Num 162583) 5
       (Some {| VerifyHOTPOptions.length := None;
                VerifyHOTPOptions.allowedBeforeDrift := Some (-2);
                VerifyHOTPOptions.allowedAfterDrift := Some 1 |})
     = Return false.
Proof.
  split; [lia|]. split; [unfold safe_integer; lia|]. split; [unfold safe_integer; lia|].
  apply (verifyHOTP_crossed_window HMAC.hmac_sha1 rfc_seed (Num 162583) 5 None (-2) 1);
    [lia | unfold safe_integer; lia | unfold safe_integer; lia].
Defined.

Lemma verifyHOTP_unencodable_counter_witness :
  ~ int64 (2 ^ 63)
  /\ verifyHOTP HMAC.hmac_sha1 rfc_seed (Num 755224) (2 ^ 63) None = Throw RangeError
  /\ verifyHOTP HMAC.hmac_sha1 rfc_seed (Num 755224) (2 ^ 63)
       (Some {| VerifyHOTPOptions.length := Some 6;
                VerifyHOTPOptions.allowedBeforeDrift := None;
                VerifyHOTPOptions.allowedAfterDrift := None |})
     = Throw RangeError.
Proof.
  split; [unfold int64; lia|].
  apply (verifyHOTP_unencodable_counter HMAC.hmac_sha1 rfc_seed (Num 755224)
           (2 ^ 63) (Some 6)).
  unfold int64. lia.
Defined.

Lemma verifyHOTP_accepts_window_witness :
  (forall key msg, List.length (HMAC.hmac_sha1 key msg) = 20%nat)
  /\ 0 <= 1 /\ 0 <= 2 /\ safe_integer (5 - 1) /\ safe_integer (5 + 2)
  /\ 0 <= Some 6 ?? 6 /\ 5 - 1 <= 4 <= 5 + 2
  /\ exists code,
       generateCode HMAC.hmac_sha1 rfc_seed 4
         (Some {| GenerateCodeOptions.length := Some 6 |}) = Return code
       /\ verifyHOTP HMAC.hmac_sha1 rfc_seed code 5
            (Some {| VerifyHOTPOptions.length := Some 6;
                     VerifyHOTPOptions.allowedBeforeDrift := Some 1;
                     VerifyHOTPOptions.allowedAfterDrift := Some 2 |})
          = Return true.
Proof.
  split; [exact hmac_sha1_length|]. split; [lia|]. split; [lia|].
  split; [unfold safe_integer; lia|]. split; [unfold safe_integer; lia|].
  split; [cbn; lia|]. split; [lia|].
  apply (verifyHOTP_accepts_window HMAC.hmac_sha1 hmac_sha1_length rfc_seed 5 4
           (Some 6) 1 2); cbn; unfold safe_integer; lia.
Defined.

Lemma verifyHOTP_wider_window_witness :
  (forall key msg, List.length (HMAC.hmac_sha1 key msg) = 20%nat)
  /\ 0 <= 0 <= 1 /\ 0 <= 0 <= 2
  /\ safe_integer (1 - 1) /\ safe_integer (1 + 2)
  /\ verifyHOTP HMAC.hmac_sha1 rfc_seed (Num 287082) 1
       (Some {| VerifyHOTPOptions.length := None;
                VerifyHOTPOptions.allowedBeforeDrift := Some 0;
                VerifyHOTPOptions.allowedAfterDrift := Some 0 |})
     = Return true
  /\ verifyHOTP HMAC.hmac_sha1 rfc_seed (Num 287082) 1
       (Some {| VerifyHOTPOptions.length := None;
                VerifyHOTPOptions.allowedBeforeDrift := Some 1;
                VerifyHOTPOptions.allowedAfterDrift := Some 2 |})
     = Return true.
Proof.
  split; [exact hmac_sha1_length|]. split; [lia|]. split; [lia|].
  split; [unfold safe_integer; lia|]. split; [unfold safe_integer; lia|].
  split; [vm_compute; reflexivity|].
  apply (verifyHOTP_wider_window HMAC.hmac_sha1 hmac_sha1_length rfc_seed
           (Num 287082) 1 None 0 0 1 2);
    [lia | lia | unfold safe_integer; lia | unfold safe_integer; lia
     | vm_compute; reflexivity].
Defined.

Lemma verifyTOTP_accepts_current_witness :
  (forall key msg, List.length (HMAC.hmac_sha1 key msg) = 20%nat)
  /\ 1 <= 30 /\ 0 <= 59000 < 2 ^ 53 /\ 0 <= None ?? 6
  /\ exists code,
       generateCode HMAC.hmac_sha1 rfc_seed (59000 / (1000 * 30))
         (Some {| GenerateCodeOptions.length := None |}) = Return code
       /\ verifyTOTP HMAC.hmac_sha1 59000 rfc_seed code
            (Some {| VerifyTOTPOptions.length := None;
                     VerifyTOTPOptions.step := Some 30 |})
          = Return true.
Proof.
  split; [exact hmac_sha1_length|]. split; [lia|]. split; [lia|].
  split; [cbn; lia|].
  apply (verifyTOTP_accepts_current HMAC.hmac_sha1 hmac_sha1_length 59000 rfc_seed
           30 None); [lia | lia | cbn; lia].
Defined.

Lemma verifyTOTP_same_step_witness :
  1 <= 30
  /\ 1 * (1000 * 30) <= 30000 < (1 + 1) * (1000 * 30)
  /\ 1 * (1000 * 30) <= 59999 < (1 + 1) * (1000 * 30)
  /\ verifyTOTP HMAC.hmac_sha1 30000 rfc_seed (Num 287082)
       (Some {| VerifyTOTPOptions.length := None; VerifyTOTPOptions.step := Some 30 |})
     = verifyTOTP HMAC.hmac_sha1 59999 rfc_seed (Num 287082)
         (Some {| VerifyTOTPOptions.length := None; VerifyTOTPOptions.step := Some 30 |}).
Proof.
  split; [lia|]. split; [lia|]. split; [lia|].
  apply (verifyTOTP_same_step HMAC.hmac_sha1 30000 59999 1 rfc_seed (Num 287082)
           30 None); lia.
Defined.

Lemma generateSeed_no_character_witness :
  -3 <= 0
  /\ generateSeed (Some {| GenerateSeedOptions.length := Some (-3) |}) sample_source
     = Return ("", sample_source).
Proof.
  split; [lia|]. apply (generateSeed_no_character (-3) sample_source). lia.
Defined.

Lemma generateSeed_two_calls_witness :
  0 <= 16 /\ 0 <= 32
  /\ exists seed1 src1 seed2 src2 src',
       generateSeed (Some {| GenerateSeedOptions.length := Some 16 |}) sample_source
       = Return (seed1, src1)
       /\ generateSeed (Some {| GenerateSeedOptions.length := Some 32 |}) src1
          = Return (seed2, src2)
       /\ generateSeed (Some {| GenerateSeedOptions.length := Some (16 + 32) |})
            sample_source
          = Return (seed1 ++ seed2, src')
       /\ forall n, src' n = src2 n.
Proof.
  split; [lia|]. split; [lia|].
  apply (generateSeed_two_calls 16 32 sample_source); lia.
Defined.

Lemma generateSeed_modulo_bias_witness :
  0 <= 3 < 36
  /\ List.length (bytes_giving (base36_char 3)) = (if 3 <? 4 then 8%nat else 7%nat)
  /\ List.length all_bytes = 256%nat
  /\ forall b, In b all_bytes.
Proof.
  split; [lia|]. apply (generateSeed_modulo_bias 3). lia.
Defined.

Lemma generateURL_account_joins_issuer_witness :
  "Iss" <> ""
  /\ generateURL rfc_seed
       (Some {| GenerateURLOptions.issuer := Some ("Iss" ++ "uer");
                GenerateURLOptions.account := Some "acct" |})
     = generateURL rfc_seed
         (Some {| GenerateURLOptions.issuer := Some "Iss";
                  GenerateURLOptions.account := Some ("uer" ++ "acct") |}).
Proof.
  split; [discriminate|].
  apply (generateURL_account_joins_issuer rfc_seed "Iss" "uer" "acct"). discriminate.
Defined.

Lemma generateQRCode_seed_or_its_url_witness :
  rfc_seed <> ""
  /\ generateQRCode sample_renderer
       {| GenerateQRCodeOptions.seed := Some rfc_seed;
          GenerateQRCodeOptions.issuer := Some "Issuer";
          GenerateQRCodeOptions.account := Some "acct";
          GenerateQRCodeOptions.url := None |}
     = generateQRCode sample_renderer
         {| GenerateQRCodeOptions.seed := None;
            GenerateQRCodeOptions.issuer := None;
            GenerateQRCodeOptions.account := None;
            GenerateQRCodeOptions.url :=
              Some (generateURL rfc_seed
                      (Some {| GenerateURLOptions.issuer := Some "Issuer";
                               GenerateURLOptions.account := Some "acct" |})) |}.
Proof.
  split; [discriminate|].
  apply (generateQRCode_seed_or_its_url sample_renderer rfc_seed (Some "Issuer")
           (Some "acct")).
  discriminate.
Defined.
